(** * HHparking: the parking-state detection of [LocationService]

    A shallow embedding of [src/services/LocationService.ts]: the haversine
    distance [calculateDistance], the detection logic [detectParkingState],
    the position callback registered by [startLocationTracking], the
    confirmation callback handed to [setTimeout], [stopLocationTracking] and
    the success path of [getCurrentLocation], together with the part of the
    host (timer table, position watches, clock) those methods call into.

    Numbers: a JavaScript [number] is read as a real number.  Rounding, NaN
    and the infinities of IEEE-754 doubles are not part of the model; the
    formulas and comparisons are those of the source. *)

From Stdlib Require Import Reals Lra Lia ZArith List Bool.
From Stdlib Require String DecimalString Permutation Sorted.
Import ListNotations.

Open Scope R_scope.

(** ** Coordinates, comparison of numbers and [Math.atan2] *)

(** [{latitude: number; longitude: number}] *)
Record Coord : Type := mkCoord { latitude : R; longitude : R }.

Module JS.

(** [a < b] on numbers, as a boolean. *)
Definition ltb (a b : R) : bool := if Rlt_dec a b then true else false.

(** [Math.atan2(y, x)]: the angle of the point [(x, y)], in [(-PI, PI]]. *)
Definition atan2 (y x : R) : R :=
  if Rlt_dec 0 x then atan (y / x)
  else if Rlt_dec x 0 then
    if Rle_dec 0 y then atan (y / x) + PI else atan (y / x) - PI
  else if Rlt_dec 0 y then PI / 2
  else if Rlt_dec y 0 then - (PI / 2)
  else 0.

End JS.

(** [calculateDistance(pos1, pos2)], lines 146-162. *)
Definition calculateDistance (pos1 pos2 : Coord) : R :=
  let R_earth := 6371000 in
  let phi1 := latitude pos1 * PI / 180 in
  let phi2 := latitude pos2 * PI / 180 in
  let dphi := (latitude pos2 - latitude pos1) * PI / 180 in
  let dlambda := (longitude pos2 - longitude pos1) * PI / 180 in
  let a :=
    sin (dphi / 2) * sin (dphi / 2) +
    cos phi1 * cos phi2 * sin (dlambda / 2) * sin (dlambda / 2) in
  let c := 2 * JS.atan2 (sqrt a) (sqrt (1 - a)) in
  R_earth * c.


(** ** The service and the host it runs on *)

(** An invocation of one of the three callbacks given to
    [startLocationTracking]: [onLocationUpdate], [onParkingDetected] (the
    park event) and [onLeavingDetected] (the leaving event). *)
Inductive Call : Type :=
| LocationUpdate (location : Coord)
| ParkDetected (location : Coord)
| LeavingDetected (location : Coord).

(** A pending [setTimeout]: its handle, the clock value (ms) from which it
    may run, and the [newLocation] its callback closes over. *)
Record Timeout : Type := mkTimeout {
  handle : nat;
  due : Z;
  captured : Coord
}.

(** The fields of the [LocationService] instance (lines 7-11), the host's
    clock, timer table and position watches, and the callbacks invoked so
    far, oldest first. *)
Record World : Type := mkWorld {
  watchId : option nat;
  lastLocation : option Coord;
  isParked : bool;
  stationaryTimer : option nat;
  clock : Z;
  timers : list Timeout;
  nextTimer : nat;
  watches : list nat;
  nextWatch : nat;
  calls : list Call
}.

(** [private stationaryThreshold = 30; // seconds] *)
Definition stationaryThreshold : Z := 30.

(** A new [LocationService] on an idle host.  Timer handles start at 1: a
    handle is tested for truthiness by the source. *)
Definition initial : World :=
  mkWorld None None false None 0 [] 1 [] 0 [].

Definition set_watchId (v : option nat) (w : World) : World :=
  mkWorld v (lastLocation w) (isParked w) (stationaryTimer w)
          (clock w) (timers w) (nextTimer w) (watches w) (nextWatch w) (calls w).

Definition set_lastLocation (v : option Coord) (w : World) : World :=
  mkWorld (watchId w) v (isParked w) (stationaryTimer w)
          (clock w) (timers w) (nextTimer w) (watches w) (nextWatch w) (calls w).

Definition set_isParked (v : bool) (w : World) : World :=
  mkWorld (watchId w) (lastLocation w) v (stationaryTimer w)
          (clock w) (timers w) (nextTimer w) (watches w) (nextWatch w) (calls w).

Definition set_stationaryTimer (v : option nat) (w : World) : World :=
  mkWorld (watchId w) (lastLocation w) (isParked w) v
          (clock w) (timers w) (nextTimer w) (watches w) (nextWatch w) (calls w).

Definition set_clock (v : Z) (w : World) : World :=
  mkWorld (watchId w) (lastLocation w) (isParked w) (stationaryTimer w)
          v (timers w) (nextTimer w) (watches w) (nextWatch w) (calls w).

Definition set_timers (v : list Timeout) (w : World) : World :=
  mkWorld (watchId w) (lastLocation w) (isParked w) (stationaryTimer w)
          (clock w) v (nextTimer w) (watches w) (nextWatch w) (calls w).

(** Invoking a callback appends to the record of calls. *)
Definition invoke (c : Call) (w : World) : World :=
  mkWorld (watchId w) (lastLocation w) (isParked w) (stationaryTimer w)
          (clock w) (timers w) (nextTimer w) (watches w) (nextWatch w)
          (calls w ++ [c]).

(** [setTimeout(() => ..., delay)] for the confirmation callback closing
    over [newLocation]: a fresh handle, the timeout pending. *)
Definition setTimeout (newLocation : Coord) (delay : Z) (w : World) : nat * World :=
  let h := nextTimer w in
  (h, mkWorld (watchId w) (lastLocation w) (isParked w) (stationaryTimer w)
              (clock w) (timers w ++ [mkTimeout h (clock w + delay) newLocation])
              (S h) (watches w) (nextWatch w) (calls w)).

(** [clearTimeout(h)] *)
Definition clearTimeout (h : nat) (w : World) : World :=
  set_timers (filter (fun t => negb (Nat.eqb (handle t) h)) (timers w)) w.

(** [Geolocation.watchPosition(...)]: a fresh watch id, the watch active. *)
Definition watchPosition (w : World) : nat * World :=
  let id := nextWatch w in
  (id, mkWorld (watchId w) (lastLocation w) (isParked w) (stationaryTimer w)
               (clock w) (timers w) (nextTimer w) (watches w ++ [id]) (S id)
               (calls w)).

(** [Geolocation.clearWatch(id)] *)
Definition clearWatch (id : nat) (w : World) : World :=
  mkWorld (watchId w) (lastLocation w) (isParked w) (stationaryTimer w)
          (clock w) (timers w) (nextTimer w)
          (filter (fun i => negb (Nat.eqb i id)) (watches w)) (nextWatch w)
          (calls w).

(** The callback given to [setTimeout], lines 125-129. *)
Definition stationaryTimerCallback (newLocation : Coord) (w : World) : World :=
  let w := set_isParked true w in
  let w := invoke (ParkDetected newLocation) w in
  set_stationaryTimer None w.

(** [detectParkingState(newLocation, onParkingDetected, onLeavingDetected)],
    lines 112-144. *)
Definition detectParkingState (newLocation : Coord) (w : World) : World :=
  match lastLocation w with
  | None => w
  | Some last =>
    let distance := calculateDistance last newLocation in
    let isStationary := JS.ltb distance 20 in
    if isStationary && negb (isParked w) then
      match stationaryTimer w with
      | None =>
        let (h, w) := setTimeout newLocation (stationaryThreshold * 1000) w in
        set_stationaryTimer (Some h) w
      | Some _ => w
      end
    else if negb isStationary then
      let w :=
        match stationaryTimer w with
        | Some h => set_stationaryTimer None (clearTimeout h w)
        | None => w
        end in
      if isParked w && JS.ltb 50 distance then
        let w := set_isParked false w in
        invoke (LeavingDetected last) w
      else w
    else w
  end.

(** The success callback given to [watchPosition], lines 80-89: what is done
    with each position sample (the feed operation of the state machine). *)
Definition feed (newLocation : Coord) (w : World) : World :=
  let w := invoke (LocationUpdate newLocation) w in
  let w := detectParkingState newLocation w in
  set_lastLocation (Some newLocation) w.

(** [startLocationTracking(onLocationUpdate, onParkingDetected,
    onLeavingDetected)], lines 74-99. *)
Definition startLocationTracking (w : World) : World :=
  let (id, w) := watchPosition w in
  set_watchId (Some id) w.

(** [stopLocationTracking()], lines 101-110. *)
Definition stopLocationTracking (w : World) : World :=
  let w :=
    match watchId w with
    | Some id => set_watchId None (clearWatch id w)
    | None => w
    end in
  match stationaryTimer w with
  | Some h => set_stationaryTimer None (clearTimeout h w)
  | None => w
  end.

(** [getCurrentLocation()], lines 49-72, once the host has answered: with a
    position ([Some]), or with an error ([None]). *)
Definition getCurrentLocation (answer : option Coord) (w : World) : World :=
  match answer with
  | Some location => set_lastLocation (Some location) w
  | None => w
  end.

(** *** The host's side *)

(** A position is handed to the callback of every active watch. *)
Definition deliver (c : Coord) (w : World) : World :=
  fold_left (fun w _ => feed c w) (watches w) w.

Definition is_due (now : Z) (t : Timeout) : bool := (due t <=? now)%Z.

(** The timeouts that are due leave the table and their callbacks run, in
    the order in which they were set. *)
Definition runTimers (w : World) : World :=
  let now := clock w in
  let ready := filter (is_due now) (timers w) in
  let w := set_timers (filter (fun t => negb (is_due now t)) (timers w)) w in
  fold_left (fun w t => stationaryTimerCallback (captured t) w) ready w.

(** What can happen to the service: calls by the application, a position
    from the location source, time passing, and a turn of the event loop
    that runs the due timeouts. *)
Inductive Input : Type :=
| Start
| Stop
| Position (c : Coord)
| GetCurrent (answer : option Coord)
| Advance (ms : N)
| RunTimers.

Definition step (w : World) (i : Input) : World :=
  match i with
  | Start => startLocationTracking w
  | Stop => stopLocationTracking w
  | Position c => deliver c w
  | GetCurrent answer => getCurrentLocation answer w
  | Advance ms => set_clock (clock w + Z.of_N ms) w
  | RunTimers => runTimers w
  end.

Definition run (ins : list Input) (w : World) : World := fold_left step ins w.

(** The callbacks invoked between [w] and a later [w']. *)
Definition emitted (w w' : World) : list Call :=
  skipn (length (calls w)) (calls w').

(** The events of the state machine are the park and the leaving event;
    [onLocationUpdate] only forwards the raw sample. *)
Definition is_event (c : Call) : bool :=
  match c with
  | LocationUpdate _ => false
  | ParkDetected _ | LeavingDetected _ => true
  end.

Definition events (w w' : World) : list Call := filter is_event (emitted w w').

(** States reached from [initial] when tracking is started only while it is
    not running. *)
Inductive reachable : World -> Prop :=
| reach_initial : reachable initial
| reach_step (w : World) (i : Input) :
    reachable w -> (i = Start -> watchId w = None) -> reachable (step w i).

(** Inputs that deliver no position and start no tracking. *)
Definition passive (i : Input) : bool :=
  match i with
  | Start | Position _ => false
  | Stop | GetCurrent _ | Advance _ | RunTimers => true
  end.

(** The host's timer table holds exactly the timeout [stationaryTimer]
    refers to. *)
Definition timer_sync (w : World) : Prop :=
  match stationaryTimer w with
  | None => timers w = []
  | Some h => exists t, timers w = [t] /\ handle t = h
  end.

(** The host's active watches are exactly the one [watchId] refers to, and
    a timeout is pending only while tracking. *)
Definition session_sync (w : World) : Prop :=
  watches w = match watchId w with Some id => [id] | None => [] end /\
  (watchId w = None -> stationaryTimer w = None).

(** ** Positions and states used in the examples

    Hamburg city centre and points to the north of it on the same meridian. *)

Definition p0 : Coord := mkCoord 53.5511 9.9937.
(** about 11 m north of [p0] *)
Definition p_near : Coord := mkCoord 53.5512 9.9937.
(** about 33 m north of [p0] *)
Definition p_mid : Coord := mkCoord 53.5514 9.9937.
(** about 67 m north of [p0], 33 m north of [p_mid] *)
Definition p_beyond : Coord := mkCoord 53.5517 9.9937.
(** about 100 m north of [p0] *)
Definition p_far : Coord := mkCoord 53.5520 9.9937.

(** A confirmed park at [p0]: tracking starts, [p0] is seen twice, 30 s pass
    and the timeout runs. *)
Definition park_at_p0 : list Input :=
  [Start; Position p0; Position p0; Advance 30000; RunTimers].

Definition parked_at_p0 : World :=
  mkWorld (Some 0%nat) (Some p0) true None 30000 [] 2 [0%nat] 1
          [LocationUpdate p0; LocationUpdate p0; ParkDetected p0].

(** Parked at [p0], then a sample 33 m to the north. *)
Definition parked_then_mid : World :=
  mkWorld (Some 0%nat) (Some p_mid) true None 30000 [] 2 [0%nat] 1
          [LocationUpdate p0; LocationUpdate p0; ParkDetected p0;
           LocationUpdate p_mid].

(** [p0] at 0 s, [p_near] at 5 s (the timer is set, due at 35 s), and the
    clock at 35 s with the timeout not yet run. *)
Definition pend_at_near : list Input :=
  [Start; Position p0; Advance 5000; Position p_near; Advance 30000].

Definition pending_at_near : World :=
  mkWorld (Some 0%nat) (Some p_near) false (Some 1%nat) 35000
          [mkTimeout 1 35000 p_near] 2 [0%nat] 1
          [LocationUpdate p0; LocationUpdate p_near].

(** Parked at [p0], then tracking stopped and started again. *)
Definition restarted_parked : World :=
  mkWorld (Some 1%nat) (Some p0) true None 30000 [] 2 [1%nat] 2
          [LocationUpdate p0; LocationUpdate p0; ParkDetected p0].

(** [p0] seen twice after the start: the confirm-timer is pending. *)
Definition timer_pending : World :=
  step (step (step initial Start) (Position p0)) (Position p0).

(** ** Further notions about runs of the service *)

(** The timer table once the stored handle, if any, has been cleared
    (lines 133-136 and 106-109). *)
Definition cleared (w : World) : list Timeout :=
  match stationaryTimer w with
  | Some h => filter (fun t => negb (Nat.eqb (handle t) h)) (timers w)
  | None => timers w
  end.

(** Reading a record of calls from the oldest call on: park and leaving
    events take turns, a park first.  [Some p] when they do, [p] telling
    whether the last event is a park; [None] when two events of one kind
    follow each other. *)
Fixpoint alternate (parked : bool) (cs : list Call) : option bool :=
  match cs with
  | [] => Some parked
  | LocationUpdate _ :: cs => alternate parked cs
  | ParkDetected _ :: cs => if parked then None else alternate true cs
  | LeavingDetected _ :: cs => if parked then alternate false cs else None
  end.

(** The time, in ms, that passes during a list of inputs. *)
Fixpoint elapsed (ins : list Input) : Z :=
  match ins with
  | [] => 0
  | Advance ms :: ins => Z.of_N ms + elapsed ins
  | _ :: ins => elapsed ins
  end.

(** Each sample of [ss] is at a distance satisfying [near] from the one
    before it, the first from [l]. *)
Fixpoint chain (near : R -> Prop) (l : Coord) (ss : list Coord) : Prop :=
  match ss with
  | [] => True
  | s :: ss => near (calculateDistance l s) /\ chain near s ss
  end.

(** The samples of [ss] fed one after the other. *)
Definition feed_all (ss : list Coord) (w : World) : World :=
  fold_left (fun w s => feed s w) ss w.

(** What every run keeps true of the detection state: the timer table
    matches the stored handle, a timer is pending only while not parked and
    only with a stored coordinate, parking implies a stored coordinate, and
    the events so far alternate and end as the parked flag says. *)
Definition detection_inv (w : World) : Prop :=
  timer_sync w /\
  (stationaryTimer w <> None -> isParked w = false) /\
  (stationaryTimer w <> None -> lastLocation w <> None) /\
  (isParked w = true -> lastLocation w <> None) /\
  alternate false (calls w) = Some (isParked w).

(** The coordinates answered by the on-demand lookups among the inputs. *)
Fixpoint fixes_of (ins : list Input) : list Coord :=
  match ins with
  | [] => []
  | GetCurrent (Some c) :: ins => c :: fixes_of ins
  | _ :: ins => fixes_of ins
  end.

(** [c] came from the location source: as a sample handed to
    [onLocationUpdate], or as one of the on-demand fixes [F]. *)
Definition seen (F : list Coord) (w : World) (c : Coord) : Prop :=
  In (LocationUpdate c) (calls w) \/ In c F.

(** Every coordinate the service holds or has reported came from the
    location source. *)
Definition provenance (F : list Coord) (w : World) : Prop :=
  timer_sync w /\
  (forall t, In t (timers w) -> In (LocationUpdate (captured t)) (calls w)) /\
  (forall l, lastLocation w = Some l -> seen F w l) /\
  (forall c, In (ParkDetected c) (calls w) -> In (LocationUpdate c) (calls w)) /\
  (forall c, In (LeavingDetected c) (calls w) -> seen F w c).

(** No park event among the calls [out]. *)
Definition no_park (out : list Call) : Prop :=
  forall c, ~ In (ParkDetected c) out.

(** Every pending timeout is due at [T] or later. *)
Definition due_from (T : Z) (w : World) : Prop :=
  forall t, In t (timers w) -> (T <= due t)%Z.

(** Watch ids are issued in increasing order, and the stored id is one of
    the active watches. *)
Definition watch_inv (w : World) : Prop :=
  (forall i, In i (watches w) -> (i < nextWatch w)%nat) /\
  (forall id, watchId w = Some id -> In id (watches w)).

(** The positions among the inputs, in order. *)
Fixpoint samples_of (ins : list Input) : list Coord :=
  match ins with
  | [] => []
  | Position c :: ins => c :: samples_of ins
  | _ :: ins => samples_of ins
  end.

(** Inputs of the location source and the clock only: positions and time
    passing, with no turn of the timers in between. *)
Definition only_moves (ins : list Input) : bool :=
  forallb (fun i => match i with Position _ | Advance _ => true | _ => false end) ins.

(** ** The rest of the services and screens *)

(** [requestLocationPermission()] of [LocationService], lines 20-47. *)
Module Permissions.

Import String.
#[local] Open Scope string_scope.

(** [LocationPermission] *)
Record LocationPermission : Type := mkPermission {
  granted : bool;
  denied : bool;
  blocked : bool
}.

(** [PermissionsAndroid.RESULTS], constants of React Native. *)
Record Results : Type := mkResults {
  GRANTED : string;
  DENIED : string;
  NEVER_ASK_AGAIN : string
}.

(** What [PermissionsAndroid.request] does: it resolves with a status, or
    it throws. *)
Inductive Request : Type :=
| Resolves (status : string)
| Throws.

Definition requestLocationPermission
           (RESULTS : Results) (OS : string) (request : Request)
  : LocationPermission :=
  if OS =? "android" then
    match request with
    | Resolves status =>
      mkPermission (status =? GRANTED RESULTS)
                   (status =? DENIED RESULTS)
                   (status =? NEVER_ASK_AGAIN RESULTS)
    | Throws => mkPermission false true false
    end
  else mkPermission true false false.

(** The values React Native gives the constants. *)
Definition reactNative : Results :=
  mkResults "granted" "denied" "never_ask_again".

End Permissions.

(** [FirebaseService]: the distance in kilometres, the nearby spots and the
    average rating. *)
Module FirebaseService.

(** [ParkingSpot]; dates are in ms, optional fields are options. *)
Record ParkingSpot : Type := mkSpot {
  id : String.string;
  latitude : R;
  longitude : R;
  address : String.string;
  isPaid : bool;
  isAvailable : bool;
  reportedBy : String.string;
  reportedAt : Z;
  estimatedDuration : option R;
  verifiedAt : option Z;
  rating : option R
}.

(** [a <= b] on numbers, as a boolean. *)
Definition leb (a b : R) : bool := if Rle_dec a b then true else false.

(** [calculateDistance(lat1, lon1, lat2, lon2)], in kilometres. *)
Definition calculateDistance (lat1 lon1 lat2 lon2 : R) : R :=
  let R_earth := 6371 in
  let dLat := (lat2 - lat1) * (PI / 180) in
  let dLon := (lon2 - lon1) * (PI / 180) in
  let a :=
    sin (dLat / 2) * sin (dLat / 2) +
    cos (lat1 * (PI / 180)) * cos (lat2 * (PI / 180)) *
    sin (dLon / 2) * sin (dLon / 2) in
  let c := 2 * JS.atan2 (sqrt a) (sqrt (1 - a)) in
  R_earth * c.

(** [Array.prototype.sort(compare)]: the sort is stable and puts [a] before
    [b] when [compare(a, b)] is negative.  For a comparator that orders the
    elements consistently, as a difference of numbers does, that is the
    list an insertion sort gives: [x], which comes before the elements of
    [l] in the array, is put before the first of them that is not strictly
    smaller. *)
Fixpoint insert (compare : ParkingSpot -> ParkingSpot -> R)
         (x : ParkingSpot) (l : list ParkingSpot) : list ParkingSpot :=
  match l with
  | [] => [x]
  | y :: l' =>
    if JS.ltb (compare y x) 0 then y :: insert compare x l' else x :: y :: l'
  end.

Definition sort (compare : ParkingSpot -> ParkingSpot -> R)
           (l : list ParkingSpot) : list ParkingSpot :=
  fold_right (insert compare) [] l.

(** The distance of a spot from the position asked about. *)
Definition distanceTo (lat lon : R) (spot : ParkingSpot) : R :=
  calculateDistance lat lon (latitude spot) (longitude spot).

(** [getNearbyParkingSpots(latitude, longitude, radiusKm = 2)].  [snapshot]
    is what the query for the available spots gives: the documents read as
    spots, in the order of the snapshot, or [None] when the query throws. *)
Definition getNearbyParkingSpots
           (snapshot : option (list ParkingSpot))
           (lat lon : R) (radiusKm : option R) : list ParkingSpot :=
  let radiusKm := match radiusKm with Some r => r | None => 2 end in
  match snapshot with
  | Some docs =>
    let spots := filter (fun spot => leb (distanceTo lat lon spot) radiusKm) docs in
    sort (fun a b => distanceTo lat lon a - distanceTo lat lon b) spots
  | None => []
  end.

(** [ratings.reduce((sum, rating) => sum + rating, 0) / ratings.length] of
    [updateParkingSpotRating]. *)
Definition averageRating (ratings : list R) : R :=
  fold_left (fun sum rating => sum + rating) ratings 0 / INR (length ratings).

End FirebaseService.

(** [formatTime] of the notifications screen. *)
Module NotificationsScreen.

Import String.
#[local] Open Scope string_scope.

(** A whole number in a template literal. *)
Definition show (n : Z) : string :=
  DecimalString.NilZero.string_of_int (Z.to_int n).

(** [formatTime(date)] when the clock reads [now]; both are times in ms,
    as [getTime()] gives them.  [Math.floor] of a quotient of whole numbers
    is the quotient of [Z]; [toLocaleDateString] is the host's. *)
Definition formatTime (toLocaleDateString : Z -> string) (now date : Z) : string :=
  let diffMinutes := ((now - date) / (1000 * 60))%Z in
  if (diffMinutes <? 1)%Z then "Just now"
  else if (diffMinutes <? 60)%Z then show diffMinutes ++ " min ago"
  else if (diffMinutes <? 1440)%Z then
    let hours := (diffMinutes / 60)%Z in
    show hours ++ " hour" ++ (if (1 <? hours)%Z then "s" else "") ++ " ago"
  else toLocaleDateString date.

End NotificationsScreen.

(** ** Evaluation *)

(** Reduction that leaves distances, comparisons of distances and the
    example positions as they are. *)
Ltac eval_service :=
  lazy -[run calculateDistance JS.ltb app Z.add Z.mul Z.leb Z.of_N Nat.eqb
         IZR Rdiv p0 p_near p_mid p_beyond p_far].

Ltac eval_closed :=
  lazy -[run calculateDistance JS.ltb IZR Rdiv p0 p_near p_mid p_beyond p_far].

(** ** Facts about the distance *)

Lemma ltb_true (a b : R) : a < b -> JS.ltb a b = true.
Proof.
  intros H; unfold JS.ltb; destruct (Rlt_dec a b); [reflexivity | contradiction].
Qed.

Lemma ltb_false (a b : R) : b <= a -> JS.ltb a b = false.
Proof.
  intros H; unfold JS.ltb; destruct (Rlt_dec a b); [lra | reflexivity].
Qed.

Lemma far_not_stationary (d : R) : 50 < d -> JS.ltb d 20 = false.
Proof. intros H; apply ltb_false; lra. Qed.

(** The haversine term does not change when the two positions are swapped:
    the difference changes sign and [sin] is odd. *)
Lemma sin_half_swap (u v : R) :
  sin ((u - v) * PI / 180 / 2) * sin ((u - v) * PI / 180 / 2) =
  sin ((v - u) * PI / 180 / 2) * sin ((v - u) * PI / 180 / 2).
Proof.
  replace ((u - v) * PI / 180 / 2) with (- ((v - u) * PI / 180 / 2)) by lra.
  rewrite sin_neg; ring.
Qed.

Lemma atan2_0_1 : JS.atan2 0 1 = 0.
Proof.
  unfold JS.atan2.
  destruct (Rlt_dec 0 1) as [_ | H]; [| lra].
  replace (0 / 1) with 0 by lra. exact atan_0.
Qed.

(** On an angle [x] of the first quadrant, [atan2 (sin x) (cos x)] is [x]. *)
Lemma atan2_sin_cos (x : R) :
  0 <= x < PI / 2 -> JS.atan2 (sin x) (cos x) = x.
Proof.
  intros [H0 H1].
  assert (Hc : 0 < cos x) by (apply cos_gt_0; lra).
  unfold JS.atan2.
  destruct (Rlt_dec 0 (cos x)) as [_ | H]; [| contradiction].
  change (sin x / cos x) with (tan x).
  apply atan_tan; lra.
Qed.

(** Two positions on one meridian, the second to the north of the first and
    less than 180 degrees away: the distance is the arc between them. *)
Lemma calculateDistance_meridian (lat1 lat2 lon : R) :
  0 <= lat2 - lat1 < 180 ->
  calculateDistance (mkCoord lat1 lon) (mkCoord lat2 lon) =
  6371000 * ((lat2 - lat1) * PI / 180).
Proof.
  intros [H0 H1].
  unfold calculateDistance; cbn [latitude longitude].
  set (x := (lat2 - lat1) * PI / 180 / 2).
  assert (Hpi := PI_RGT_0).
  assert (Hx : 0 <= x < PI / 2) by (unfold x; split; nra).
  replace ((lon - lon) * PI / 180 / 2) with 0 by lra.
  rewrite sin_0, !Rmult_0_r, Rplus_0_r.
  assert (Hs : 0 <= sin x) by (apply sin_ge_0; lra).
  assert (Hc : 0 <= cos x) by (apply cos_ge_0; lra).
  rewrite (sqrt_square _ Hs).
  replace (1 - sin x * sin x) with (cos x * cos x)
    by (generalize (sin2_cos2 x); unfold Rsqr; lra).
  rewrite (sqrt_square _ Hc).
  rewrite (atan2_sin_cos x Hx).
  unfold x; lra.
Qed.

Lemma calculateDistance_sym (a b : Coord) :
  calculateDistance a b = calculateDistance b a.
Proof.
  destruct a as [la lo], b as [la' lo'].
  unfold calculateDistance; cbn [latitude longitude].
  rewrite (sin_half_swap la' la), (Rmult_comm (cos (la * PI / 180))).
  rewrite !Rmult_assoc, (sin_half_swap lo' lo).
  reflexivity.
Qed.

Lemma calculateDistance_same (a : Coord) : calculateDistance a a = 0.
Proof.
  destruct a as [la lo]; unfold calculateDistance; cbn [latitude longitude].
  replace ((la - la) * PI / 180 / 2) with 0 by lra.
  replace ((lo - lo) * PI / 180 / 2) with 0 by lra.
  rewrite sin_0, !Rmult_0_r, Rplus_0_r, Rminus_0_r, sqrt_0, sqrt_1, atan2_0_1.
  ring.
Qed.

(** C9: the distance is symmetric, and it is zero from a position to
    itself: [calculateDistance a b = calculateDistance b a] and
    [calculateDistance a a = 0] for all coordinates [a] and [b]. *)
Theorem calculateDistance_symmetric_zero :
  (forall a b : Coord, calculateDistance a b = calculateDistance b a) /\
  (forall a : Coord, calculateDistance a a = 0).
Proof.
  split; [exact calculateDistance_sym | exact calculateDistance_same].
Qed.

(** *** Distances between the example positions *)

Lemma PI_bounds : 3 < PI <= 4.
Proof. split; [generalize PI2_3_2; lra | exact PI_4]. Qed.

Ltac on_meridian :=
  unfold p0, p_near, p_mid, p_beyond, p_far;
  rewrite calculateDistance_meridian by lra;
  generalize PI_bounds; intros [? ?].

Lemma d_p0_near : 10 < calculateDistance p0 p_near < 15.
Proof. on_meridian; lra. Qed.

Lemma d_near_p0 : calculateDistance p_near p0 < 20.
Proof. rewrite calculateDistance_sym; generalize d_p0_near; lra. Qed.

Lemma d_p0_mid : 30 < calculateDistance p0 p_mid < 45.
Proof. on_meridian; lra. Qed.

Lemma d_mid_beyond : 30 < calculateDistance p_mid p_beyond < 45.
Proof. on_meridian; lra. Qed.

Lemma d_p0_beyond : 60 < calculateDistance p0 p_beyond.
Proof. on_meridian; lra. Qed.

Lemma d_p0_far : 95 < calculateDistance p0 p_far.
Proof. on_meridian; lra. Qed.

Lemma d_near_far : 80 < calculateDistance p_near p_far.
Proof. on_meridian; lra. Qed.

Lemma d_mid_far : 60 < calculateDistance p_mid p_far.
Proof. on_meridian; lra. Qed.

Lemma same_stationary (c : Coord) : JS.ltb (calculateDistance c c) 20 = true.
Proof. apply ltb_true; rewrite calculateDistance_same; lra. Qed.

Lemma near_stationary : JS.ltb (calculateDistance p0 p_near) 20 = true.
Proof. apply ltb_true; generalize d_p0_near; lra. Qed.

Lemma back_stationary : JS.ltb (calculateDistance p_near p0) 20 = true.
Proof. apply ltb_true; exact d_near_p0. Qed.

Lemma mid_not_stationary : JS.ltb (calculateDistance p0 p_mid) 20 = false.
Proof. apply ltb_false; generalize d_p0_mid; lra. Qed.

Lemma mid_not_left : JS.ltb 50 (calculateDistance p0 p_mid) = false.
Proof. apply ltb_false; generalize d_p0_mid; lra. Qed.

Lemma beyond_not_stationary : JS.ltb (calculateDistance p_mid p_beyond) 20 = false.
Proof. apply ltb_false; generalize d_mid_beyond; lra. Qed.

Lemma beyond_not_left : JS.ltb 50 (calculateDistance p_mid p_beyond) = false.
Proof. apply ltb_false; generalize d_mid_beyond; lra. Qed.

Lemma far_not_stationary_p0 : JS.ltb (calculateDistance p0 p_far) 20 = false.
Proof. apply far_not_stationary; generalize d_p0_far; lra. Qed.

Lemma far_left_p0 : JS.ltb 50 (calculateDistance p0 p_far) = true.
Proof. apply ltb_true; generalize d_p0_far; lra. Qed.

Lemma far_not_stationary_near : JS.ltb (calculateDistance p_near p_far) 20 = false.
Proof. apply far_not_stationary; generalize d_near_far; lra. Qed.

Lemma far_left_near : JS.ltb 50 (calculateDistance p_near p_far) = true.
Proof. apply ltb_true; generalize d_near_far; lra. Qed.

Lemma far_not_stationary_mid : JS.ltb (calculateDistance p_mid p_far) 20 = false.
Proof. apply far_not_stationary; generalize d_mid_far; lra. Qed.

Lemma far_left_mid : JS.ltb 50 (calculateDistance p_mid p_far) = true.
Proof. apply ltb_true; generalize d_mid_far; lra. Qed.

Create Rewrite HintDb geo.
#[local] Hint Rewrite same_stationary near_stationary back_stationary
  mid_not_stationary mid_not_left beyond_not_stationary beyond_not_left
  far_not_stationary_p0 far_left_p0 far_not_stationary_near far_left_near
  far_not_stationary_mid far_left_mid : geo.

Lemma p_near_neq_p0 : p_near <> p0.
Proof. unfold p_near, p0; intros H; injection H; lra. Qed.

Lemma p_mid_neq_p0 : p_mid <> p0.
Proof. unfold p_mid, p0; intros H; injection H; lra. Qed.

(** ** Running the service *)

Lemma run_cons (i : Input) (ins : list Input) (w : World) :
  run (i :: ins) w = run ins (step w i).
Proof. reflexivity. Qed.

Lemma run_nil (w : World) : run [] w = w.
Proof. reflexivity. Qed.

Lemma run_app (ins ins' : list Input) (w : World) :
  run (ins ++ ins') w = run ins' (run ins w).
Proof. apply fold_left_app. Qed.

(** One input at a time, on a world given field by field. *)
Ltac run1 := rewrite run_cons; eval_closed; autorewrite with geo; eval_closed.
Ltac run_all := repeat run1; rewrite ?run_nil.

(** A feed on a world given field by field. *)
Ltac feed_eval := eval_closed; autorewrite with geo; eval_closed.

Lemma run_park_at_p0 : run park_at_p0 initial = parked_at_p0.
Proof. unfold park_at_p0; run_all. reflexivity. Qed.

Lemma run_parked_then_mid :
  run (park_at_p0 ++ [Position p_mid]) initial = parked_then_mid.
Proof. rewrite run_app, run_park_at_p0. run_all. reflexivity. Qed.

Lemma run_pending_at_near : run pend_at_near initial = pending_at_near.
Proof. unfold pend_at_near; run_all. reflexivity. Qed.

Lemma run_restarted_parked :
  run (park_at_p0 ++ [Stop; Start]) initial = restarted_parked.
Proof. rewrite run_app, run_park_at_p0. run_all. reflexivity. Qed.

Lemma timer_pending_eq :
  timer_pending =
  mkWorld (Some 0%nat) (Some p0) false (Some 1%nat) 0 [mkTimeout 1 30000 p0] 2
          [0%nat] 1 [LocationUpdate p0; LocationUpdate p0].
Proof.
  change timer_pending with (run [Start; Position p0; Position p0] initial).
  run_all. reflexivity.
Qed.

(** ** The feed operation, case by case *)

Lemma skipn_length_app (A : Type) (l l' : list A) : skipn (length l) (l ++ l') = l'.
Proof. induction l as [| a l IH]; [reflexivity | exact IH]. Qed.

Lemma emitted_app (w w' : World) (out : list Call) :
  calls w' = calls w ++ out -> emitted w w' = out.
Proof. intros H; unfold emitted; rewrite H; apply skipn_length_app. Qed.

(** A call is in [[LocationUpdate s]] or in [[LocationUpdate s; e]]. *)
Ltac in_calls H :=
  repeat (destruct H as [H | H]; [try discriminate H | ]); try contradiction H.

Section FeedCases.

Variable s : Coord.

(** No stored coordinate: the sample is stored and nothing else changes. *)
Lemma feed_no_last (w : World) :
  lastLocation w = None ->
  feed s w = set_lastLocation (Some s) (invoke (LocationUpdate s) w).
Proof.
  intros H; destruct w; cbn in H; subst.
  reflexivity.
Qed.

(** Parked, and the sample more than 50 m from the stored coordinate. *)
Lemma feed_parked_far (l : Coord) (w : World) :
  isParked w = true -> lastLocation w = Some l -> 50 < calculateDistance l s ->
  calls (feed s w) = calls w ++ [LocationUpdate s; LeavingDetected l] /\
  isParked (feed s w) = false.
Proof.
  intros Hp Hl Hd; destruct w as [wid last parked tm clk tms nt ws nw cs].
  cbn in Hp, Hl; subst.
  eval_service. rewrite (far_not_stationary _ Hd), (ltb_true _ _ Hd).
  eval_service. destruct tm; rewrite <- app_assoc; split; reflexivity.
Qed.

(** Parked, and the sample at most 50 m from the stored coordinate. *)
Lemma feed_parked_close (l : Coord) (w : World) :
  isParked w = true -> lastLocation w = Some l -> calculateDistance l s <= 50 ->
  calls (feed s w) = calls w ++ [LocationUpdate s] /\
  isParked (feed s w) = true.
Proof.
  intros Hp Hl Hd; destruct w as [wid last parked tm clk tms nt ws nw cs].
  cbn in Hp, Hl; subst.
  eval_service. rewrite (ltb_false _ _ Hd).
  destruct (JS.ltb (calculateDistance l s) 20); [| destruct tm];
    split; reflexivity.
Qed.

(** A timer pending, and the sample within 20 m of the stored coordinate:
    only the stored coordinate changes. *)
Lemma feed_pending_stationary (l : Coord) (h : nat) (w : World) :
  stationaryTimer w = Some h -> lastLocation w = Some l ->
  calculateDistance l s < 20 ->
  emitted w (feed s w) = [LocationUpdate s] /\
  isParked (feed s w) = isParked w /\
  stationaryTimer (feed s w) = Some h /\
  timers (feed s w) = timers w.
Proof.
  intros Htm Hl Hd; destruct w as [wid last parked tm clk tms nt ws nw cs].
  cbn in Htm, Hl; subst.
  split; [apply emitted_app |]; eval_service; rewrite (ltb_true _ _ Hd);
    destruct parked; repeat split.
Qed.

(** Not parked, no timer pending, and the sample within 20 m of the stored
    coordinate: a timeout closing over the sample is set, due 30 s later. *)
Lemma feed_sets_timer (l : Coord) (w : World) :
  stationaryTimer w = None -> isParked w = false ->
  lastLocation w = Some l -> calculateDistance l s < 20 ->
  emitted w (feed s w) = [LocationUpdate s] /\
  isParked (feed s w) = false /\
  stationaryTimer (feed s w) = Some (nextTimer w) /\
  timers (feed s w) = timers w ++ [mkTimeout (nextTimer w) (clock w + 30000) s].
Proof.
  intros Htm Hp Hl Hd; destruct w as [wid last parked tm clk tms nt ws nw cs].
  cbn in Htm, Hp, Hl; subst.
  split; [apply emitted_app |]; eval_service; rewrite (ltb_true _ _ Hd);
    repeat split.
Qed.

(** What a feed invokes: [onLocationUpdate] alone, or [onLocationUpdate]
    and then [onLeavingDetected] with the stored coordinate, the latter
    exactly when the machine is parked and the sample is more than 50 m from
    the stored coordinate. *)
Lemma feed_calls (w : World) :
  calls (feed s w) = calls w ++ [LocationUpdate s] \/
  exists l, lastLocation w = Some l /\ isParked w = true /\
            50 < calculateDistance l s /\
            calls (feed s w) = calls w ++ [LocationUpdate s; LeavingDetected l].
Proof.
  destruct (lastLocation w) as [l |] eqn:Hl.
  - destruct (isParked w) eqn:Hp.
    + destruct (Rlt_le_dec 50 (calculateDistance l s)) as [Hd | Hd].
      * right; exists l. destruct (feed_parked_far l w Hp Hl Hd); auto.
      * left. destruct (feed_parked_close l w Hp Hl Hd); auto.
    + left. destruct w as [wid last parked tm clk tms nt ws nw cs].
      cbn in Hl, Hp; subst. eval_service.
      destruct (JS.ltb (calculateDistance l s) 20); destruct tm; reflexivity.
  - left. rewrite (feed_no_last w Hl). reflexivity.
Qed.

End FeedCases.

(** The due timeout runs: the machine is parked, the handle cleared, and the
    park event carries the coordinate the timeout closed over. *)
Lemma runTimers_due (w : World) (t : Timeout) :
  timers w = [t] -> (due t <= clock w)%Z ->
  emitted w (runTimers w) = [ParkDetected (captured t)] /\
  isParked (runTimers w) = true /\
  stationaryTimer (runTimers w) = None /\
  timers (runTimers w) = [].
Proof.
  intros Ht Hd; destruct w as [wid last parked tm clk tms nt ws nw cs].
  destruct t as [h d c]; cbn in Ht, Hd; subst. apply Z.leb_le in Hd.
  split; [apply emitted_app |]; eval_service; rewrite Hd; repeat split.
Qed.

Lemma runTimers_not_due (w : World) (t : Timeout) :
  timers w = [t] -> (clock w < due t)%Z -> runTimers w = w.
Proof.
  intros Ht Hd; destruct w as [wid last parked tm clk tms nt ws nw cs].
  destruct t as [h d c]; cbn in Ht, Hd; subst. apply Z.leb_gt in Hd.
  eval_service; rewrite Hd; reflexivity.
Qed.

(** ** The claims about the feed operation *)

(** C1 (as amended): for every machine in the parked state, feeding a sample
    emits a leaving event if and only if the distance from the stored
    last-seen coordinate (the sample fed just before, or the on-demand fix)
    to the new sample exceeds 50 m, and the event carries that stored
    coordinate. *)
Theorem leaving_iff_far_from_last (w : World) (l s : Coord) :
  isParked w = true -> lastLocation w = Some l ->
  ((exists x, In (LeavingDetected x) (emitted w (feed s w))) <->
   50 < calculateDistance l s) /\
  (forall x, In (LeavingDetected x) (emitted w (feed s w)) -> x = l).
Proof.
  intros Hp Hl.
  destruct (Rlt_le_dec 50 (calculateDistance l s)) as [Hd | Hd].
  - destruct (feed_parked_far s l w Hp Hl Hd) as [Hc _].
    rewrite (emitted_app _ _ _ Hc). split.
    + split; [intros _; exact Hd | intros _; exists l; right; left; reflexivity].
    + intros x H; in_calls H. congruence.
  - destruct (feed_parked_close s l w Hp Hl Hd) as [Hc _].
    rewrite (emitted_app _ _ _ Hc). split.
    + split; [intros [x H]; in_calls H | intros H; lra].
    + intros x H; in_calls H.
Qed.

Lemma leaving_iff_far_from_last_witness :
  ((exists x, In (LeavingDetected x) (emitted parked_at_p0 (feed p_far parked_at_p0))) <->
   50 < calculateDistance p0 p_far) /\
  (forall x, In (LeavingDetected x) (emitted parked_at_p0 (feed p_far parked_at_p0)) ->
             x = p0).
Proof.
  apply (leaving_iff_far_from_last parked_at_p0 p0 p_far); reflexivity.
Defined.

(** C1 as stated fails: parking is confirmed at [p0]; a sample 33 m to the
    north leaves the machine parked; the next sample is 67 m from [p0], more
    than the leaving radius, and no leaving event is emitted, because it is
    33 m from the sample before it. *)
Lemma leaving_not_measured_from_parked_anchor :
  let w := run (park_at_p0 ++ [Position p_mid]) initial in
  calls w = [LocationUpdate p0; LocationUpdate p0; ParkDetected p0;
             LocationUpdate p_mid] /\
  isParked w = true /\
  50 < calculateDistance p0 p_beyond /\
  emitted w (feed p_beyond w) = [LocationUpdate p_beyond].
Proof.
  cbv zeta. rewrite run_parked_then_mid. repeat split.
  - generalize d_p0_beyond; lra.
  - feed_eval. reflexivity.
Qed.

(** C2 (as amended): every leaving event carries the stored last-seen
    coordinate, that is the sample fed just before the one that triggers it
    (or the on-demand fix), never the new live sample, and a feed emits at
    most one.  In particular, when parking is confirmed for the sample [s1]
    and no other sample is fed in between, a sample more than 50 m from [s1]
    emits exactly one leaving event, carrying [s1]. *)
Theorem leaving_carries_last :
  (forall (w : World) (s x : Coord),
      In (LeavingDetected x) (emitted w (feed s w)) ->
      lastLocation w = Some x /\ x <> s /\
      emitted w (feed s w) = [LocationUpdate s; LeavingDetected x]) /\
  (forall (w : World) (l s1 s2 : Coord) (ms : N),
      isParked w = false -> stationaryTimer w = None -> timers w = [] ->
      lastLocation w = Some l -> calculateDistance l s1 < 20 ->
      (30000 <= Z.of_N ms)%Z -> 50 < calculateDistance s1 s2 ->
      emitted w (feed s2 (runTimers (step (feed s1 w) (Advance ms)))) =
      [LocationUpdate s1; ParkDetected s1; LocationUpdate s2; LeavingDetected s1]).
Proof.
  split.
  - intros w s x H.
    destruct (feed_calls s w) as [Hc | (l & Hl & Hp & Hd & Hc)];
      rewrite (emitted_app _ _ _ Hc) in *; in_calls H.
    injection H as ->. repeat split; trivial.
    intros ->. rewrite calculateDistance_same in Hd. lra.
  - intros w l s1 s2 ms Hp Htm Hts Hl Hd1 Hms Hd2.
    destruct w as [wid last parked tm clk tms nt ws nw cs].
    cbn in Hp, Htm, Hts, Hl; subst. apply emitted_app.
    assert (Hdue : (clk + 30 * 1000 <=? clk + Z.of_N ms)%Z = true)
      by (apply Z.leb_le; lia).
    assert (H1 : feed s1 (mkWorld wid (Some l) false None clk [] nt ws nw cs) =
                 mkWorld wid (Some s1) false (Some nt) clk
                         [mkTimeout nt (clk + 30 * 1000) s1] (S nt) ws nw
                         (cs ++ [LocationUpdate s1])).
    { eval_service. rewrite (ltb_true _ _ Hd1). reflexivity. }
    rewrite H1; clear H1.
    assert (H2 : runTimers
                   (step (mkWorld wid (Some s1) false (Some nt) clk
                                  [mkTimeout nt (clk + 30 * 1000) s1] (S nt) ws nw
                                  (cs ++ [LocationUpdate s1]))
                         (Advance ms)) =
                 mkWorld wid (Some s1) true None (clk + Z.of_N ms) [] (S nt) ws nw
                         ((cs ++ [LocationUpdate s1]) ++ [ParkDetected s1])).
    { eval_service. rewrite Hdue. reflexivity. }
    rewrite H2; clear H2.
    eval_service. rewrite (far_not_stationary _ Hd2), (ltb_true _ _ Hd2).
    eval_service. rewrite <- !app_assoc. reflexivity.
Qed.

Lemma leaving_carries_last_witness :
  (lastLocation parked_at_p0 = Some p0 /\ p0 <> p_far /\
   emitted parked_at_p0 (feed p_far parked_at_p0) =
   [LocationUpdate p_far; LeavingDetected p0]) /\
  emitted (step (step initial Start) (Position p0))
          (feed p_far
                (runTimers (step (feed p0 (step (step initial Start) (Position p0)))
                                 (Advance 30000)))) =
  [LocationUpdate p0; ParkDetected p0; LocationUpdate p_far; LeavingDetected p0].
Proof.
  split.
  - apply (proj1 leaving_carries_last parked_at_p0 p_far p0).
    destruct (feed_parked_far p_far p0 parked_at_p0) as [Hc _];
      [reflexivity | reflexivity | generalize d_p0_far; lra |].
    rewrite (emitted_app _ _ _ Hc). right; left; reflexivity.
  - apply (proj2 leaving_carries_last _ p0 p0 p_far 30000%N).
    + reflexivity.
    + reflexivity.
    + reflexivity.
    + reflexivity.
    + rewrite calculateDistance_same; lra.
    + vm_compute; discriminate.
    + generalize d_p0_far; lra.
Defined.

(** C2 as stated fails.  First run: parking is confirmed at [p0], a sample
    33 m away follows (still parked), and the leaving event triggered by
    the next sample carries that sample, not [p0].  Second run: a sample 11 m
    from [p0] arrives while the timer set at [p0] is pending; the park event
    carries [p0], and the sample 100 m from [p0] fed right after the
    confirmation triggers a leaving event that carries the 11 m sample. *)
Lemma leaving_carries_other_than_parked :
  calls (run (park_at_p0 ++ [Position p_mid; Position p_far]) initial) =
  [LocationUpdate p0; LocationUpdate p0; ParkDetected p0;
   LocationUpdate p_mid; LocationUpdate p_far; LeavingDetected p_mid] /\
  p_mid <> p0 /\
  calls (run [Start; Position p0; Position p0; Position p_near; Advance 30000;
              RunTimers; Position p_far] initial) =
  [LocationUpdate p0; LocationUpdate p0; LocationUpdate p_near; ParkDetected p0;
   LocationUpdate p_far; LeavingDetected p_near] /\
  p_near <> p0.
Proof.
  split; [| split; [| split]].
  - rewrite run_app, run_park_at_p0. run_all. reflexivity.
  - exact p_mid_neq_p0.
  - run_all. reflexivity.
  - exact p_near_neq_p0.
Qed.

(** C3 (as amended): the stored coordinate is not pinned while parked:
    every feed, in every state and whether or not a leaving event fires,
    replaces it by the new sample.  While the machine is parked, a feed that
    emits no leaving event emits no event at all and leaves the machine
    parked (for example a sample 30 m away). *)
Theorem parked_feed_replaces_last :
  (forall (w : World) (s : Coord), lastLocation (feed s w) = Some s) /\
  (forall (w : World) (l s : Coord),
      isParked w = true -> lastLocation w = Some l ->
      (forall x, ~ In (LeavingDetected x) (emitted w (feed s w))) ->
      events w (feed s w) = [] /\
      emitted w (feed s w) = [LocationUpdate s] /\
      isParked (feed s w) = true) /\
  (forall (w : World) (l s : Coord),
      isParked w = true -> lastLocation w = Some l ->
      In (LeavingDetected l) (emitted w (feed s w)) ->
      isParked (feed s w) = false /\ lastLocation (feed s w) = Some s).
Proof.
  split; [intros w s; reflexivity | split].
  - intros w l s Hp Hl Hno.
    destruct (Rlt_le_dec 50 (calculateDistance l s)) as [Hd | Hd].
    + destruct (feed_parked_far s l w Hp Hl Hd) as [Hc _].
      exfalso; apply (Hno l). rewrite (emitted_app _ _ _ Hc).
      right; left; reflexivity.
    + destruct (feed_parked_close s l w Hp Hl Hd) as [Hc Hp'].
      unfold events. rewrite (emitted_app _ _ _ Hc). repeat split; trivial.
  - intros w l s Hp Hl Hin. split; [| reflexivity].
    destruct (Rlt_le_dec 50 (calculateDistance l s)) as [Hd | Hd].
    + destruct (feed_parked_far s l w Hp Hl Hd) as [_ Hp']. exact Hp'.
    + destruct (feed_parked_close s l w Hp Hl Hd) as [Hc _].
      rewrite (emitted_app _ _ _ Hc) in Hin. in_calls Hin.
Qed.

Lemma parked_feed_replaces_last_witness :
  (events parked_at_p0 (feed p_mid parked_at_p0) = [] /\
   emitted parked_at_p0 (feed p_mid parked_at_p0) = [LocationUpdate p_mid] /\
   isParked (feed p_mid parked_at_p0) = true) /\
  (isParked (feed p_far parked_at_p0) = false /\
   lastLocation (feed p_far parked_at_p0) = Some p_far).
Proof.
  split.
  - apply (proj1 (proj2 parked_feed_replaces_last) parked_at_p0 p0 p_mid).
    + reflexivity.
    + reflexivity.
    + intros x H.
      destruct (feed_parked_close p_mid p0 parked_at_p0) as [Hc _];
        [reflexivity | reflexivity | generalize d_p0_mid; lra |].
      rewrite (emitted_app _ _ _ Hc) in H. in_calls H.
  - apply (proj2 (proj2 parked_feed_replaces_last) parked_at_p0 p0 p_far).
    + reflexivity.
    + reflexivity.
    + destruct (feed_parked_far p_far p0 parked_at_p0) as [Hc _];
        [reflexivity | reflexivity | generalize d_p0_far; lra |].
      rewrite (emitted_app _ _ _ Hc). right; left; reflexivity.
Defined.

(** C3 as stated fails: parked at [p0], a sample 33 m away emits no leaving
    event, yet the stored coordinate is no longer [p0]. *)
Lemma parked_anchor_not_pinned :
  let w := run park_at_p0 initial in
  isParked w = true /\ lastLocation w = Some p0 /\
  emitted w (feed p_mid w) = [LocationUpdate p_mid] /\
  lastLocation (feed p_mid w) = Some p_mid /\
  p_mid <> p0.
Proof.
  cbv zeta. rewrite run_park_at_p0. repeat split.
  - feed_eval. reflexivity.
  - exact p_mid_neq_p0.
Qed.

(** C4 (as amended): a sample within 20 m of the stored coordinate that
    finds a timer pending changes nothing but the stored coordinate and
    emits no event, whether or not the 30 s have passed.  The park event
    comes from the timeout: it is set by the stationary sample that finds no
    timer pending, to run 30 s later; until then running the timers changes
    nothing, and when it runs the machine becomes parked, the timer is
    cleared, and the park event carries the sample that set the timer. *)
Theorem park_confirmed_by_timeout :
  (forall (w : World) (l s : Coord) (h : nat),
      stationaryTimer w = Some h -> lastLocation w = Some l ->
      calculateDistance l s < 20 ->
      emitted w (feed s w) = [LocationUpdate s] /\
      isParked (feed s w) = isParked w /\
      stationaryTimer (feed s w) = Some h /\
      timers (feed s w) = timers w) /\
  (forall (w : World) (l s : Coord),
      stationaryTimer w = None -> isParked w = false ->
      lastLocation w = Some l -> calculateDistance l s < 20 ->
      emitted w (feed s w) = [LocationUpdate s] /\
      isParked (feed s w) = false /\
      stationaryTimer (feed s w) = Some (nextTimer w) /\
      timers (feed s w) =
      timers w ++ [mkTimeout (nextTimer w) (clock w + 30000) s]) /\
  (forall (w : World) (t : Timeout),
      timers w = [t] -> (due t <= clock w)%Z ->
      emitted w (runTimers w) = [ParkDetected (captured t)] /\
      isParked (runTimers w) = true /\
      stationaryTimer (runTimers w) = None /\
      timers (runTimers w) = []) /\
  (forall (w : World) (t : Timeout),
      timers w = [t] -> (clock w < due t)%Z -> runTimers w = w).
Proof.
  split; [| split; [| split]].
  - intros w l s h. apply feed_pending_stationary.
  - intros w l s. apply feed_sets_timer.
  - exact runTimers_due.
  - exact runTimers_not_due.
Qed.

Lemma park_confirmed_by_timeout_witness :
  (emitted pending_at_near (feed p0 pending_at_near) = [LocationUpdate p0] /\
   isParked (feed p0 pending_at_near) = isParked pending_at_near /\
   stationaryTimer (feed p0 pending_at_near) = Some 1%nat /\
   timers (feed p0 pending_at_near) = timers pending_at_near) /\
  (emitted pending_at_near (runTimers pending_at_near) = [ParkDetected p_near] /\
   isParked (runTimers pending_at_near) = true /\
   stationaryTimer (runTimers pending_at_near) = None /\
   timers (runTimers pending_at_near) = []).
Proof.
  split.
  - apply (proj1 park_confirmed_by_timeout pending_at_near p_near p0 1%nat).
    + reflexivity.
    + reflexivity.
    + exact d_near_p0.
  - apply (proj1 (proj2 (proj2 park_confirmed_by_timeout)) pending_at_near
                 (mkTimeout 1 35000 p_near)).
    + reflexivity.
    + vm_compute; discriminate.
Defined.

(** C4 as stated fails.  The timer is set at 5 s by the sample [p_near]; at
    35 s the delay has elapsed and the timer is still pending when the
    sample [p0], 11 m from [p_near], is fed: no event is emitted and the
    machine is not parked.  The park event is emitted when the timeout
    runs, and it carries [p_near], not the sample that arrived at
    confirmation time. *)
Lemma elapsed_timer_sample_emits_nothing :
  let w := run pend_at_near initial in
  stationaryTimer w = Some 1%nat /\
  timers w = [mkTimeout 1 (5000 + 30000) p_near] /\
  clock w = 35000%Z /\
  lastLocation w = Some p_near /\
  calculateDistance p_near p0 < 20 /\
  emitted w (feed p0 w) = [LocationUpdate p0] /\
  isParked (feed p0 w) = false /\
  stationaryTimer (feed p0 w) = Some 1%nat /\
  emitted (feed p0 w) (runTimers (feed p0 w)) = [ParkDetected p_near] /\
  p_near <> p0.
Proof.
  cbv zeta. rewrite run_pending_at_near.
  assert (Hf : feed p0 pending_at_near =
               mkWorld (Some 0%nat) (Some p0) false (Some 1%nat) 35000
                       [mkTimeout 1 35000 p_near] 2 [0%nat] 1
                       [LocationUpdate p0; LocationUpdate p_near; LocationUpdate p0]).
  { feed_eval. reflexivity. }
  rewrite Hf.
  repeat split; try reflexivity.
  - exact d_near_p0.
  - exact p_near_neq_p0.
Qed.

(** C8: for every sample, feeding it into a machine with no stored
    coordinate stores the sample and emits no event: [onLocationUpdate] is
    the only callback invoked, and the parked flag, the timer handle and the
    timer table are as before. *)
Theorem first_sample_baseline (w : World) (s : Coord) :
  lastLocation w = None ->
  lastLocation (feed s w) = Some s /\
  events w (feed s w) = [] /\
  emitted w (feed s w) = [LocationUpdate s] /\
  isParked (feed s w) = isParked w /\
  stationaryTimer (feed s w) = stationaryTimer w /\
  timers (feed s w) = timers w /\
  nextTimer (feed s w) = nextTimer w.
Proof.
  intros H. rewrite (feed_no_last s w H).
  assert (He : emitted w (set_lastLocation (Some s) (invoke (LocationUpdate s) w)) =
               [LocationUpdate s]) by (apply emitted_app; reflexivity).
  unfold events. rewrite He. repeat split.
Qed.

Lemma first_sample_baseline_witness :
  lastLocation (feed p0 (startLocationTracking initial)) = Some p0 /\
  events (startLocationTracking initial) (feed p0 (startLocationTracking initial)) =
  [] /\
  emitted (startLocationTracking initial) (feed p0 (startLocationTracking initial)) =
  [LocationUpdate p0] /\
  isParked (feed p0 (startLocationTracking initial)) =
  isParked (startLocationTracking initial) /\
  stationaryTimer (feed p0 (startLocationTracking initial)) =
  stationaryTimer (startLocationTracking initial) /\
  timers (feed p0 (startLocationTracking initial)) =
  timers (startLocationTracking initial) /\
  nextTimer (feed p0 (startLocationTracking initial)) =
  nextTimer (startLocationTracking initial).
Proof.
  apply (first_sample_baseline (startLocationTracking initial) p0).
  reflexivity.
Defined.

(** C10: a successful [getCurrentLocation] stores the fix as the last-seen
    coordinate of every machine, whatever its state, and changes nothing
    else; the machine is then no longer fresh, and the next sample is
    measured against the fix.  Within 20 m of the fix it sets the confirm
    timer at once on a machine that is not parked and has no timer pending,
    and leaves a pending timer as it is; on a parked machine a sample more
    than 50 m from the fix emits a leaving event carrying the fix, and one
    at most 50 m away emits none.  The same sample fed into the machine
    without the fix, when it has no stored coordinate, sets no timer and
    emits no event. *)
Theorem getCurrentLocation_sets_baseline (w : World) (location s : Coord) :
  let w' := getCurrentLocation (Some location) w in
  (lastLocation w' = Some location /\
   isParked w' = isParked w /\ stationaryTimer w' = stationaryTimer w /\
   timers w' = timers w /\ calls w' = calls w) /\
  (isParked w = false -> stationaryTimer w = None ->
   calculateDistance location s < 20 ->
   stationaryTimer (feed s w') = Some (nextTimer w) /\
   timers (feed s w') =
   timers w ++ [mkTimeout (nextTimer w) (clock w + 30000) s]) /\
  (forall h, stationaryTimer w = Some h -> calculateDistance location s < 20 ->
             stationaryTimer (feed s w') = Some h /\
             timers (feed s w') = timers w /\
             emitted w' (feed s w') = [LocationUpdate s]) /\
  (isParked w = true -> 50 < calculateDistance location s ->
   emitted w' (feed s w') = [LocationUpdate s; LeavingDetected location] /\
   isParked (feed s w') = false) /\
  (isParked w = true -> calculateDistance location s <= 50 ->
   emitted w' (feed s w') = [LocationUpdate s] /\
   isParked (feed s w') = true) /\
  (lastLocation w = None ->
   stationaryTimer (feed s w) = stationaryTimer w /\
   timers (feed s w) = timers w /\
   emitted w (feed s w) = [LocationUpdate s]).
Proof.
  intros w'.
  assert (Hfix : lastLocation w' = Some location /\
                 isParked w' = isParked w /\
                 stationaryTimer w' = stationaryTimer w /\
                 timers w' = timers w /\ calls w' = calls w /\
                 nextTimer w' = nextTimer w /\ clock w' = clock w)
    by (destruct w; repeat split).
  destruct Hfix as (Hl & Hp & Ht & Hts & Hc & Hn & Hk).
  split; [repeat split; assumption |].
  split; [| split; [| split; [| split]]].
  - intros Hp0 Ht0 Hd.
    destruct (feed_sets_timer s location w') as (_ & _ & H1 & H2);
      try congruence.
    rewrite H1, H2, Hn, Hk, Hts. split; reflexivity.
  - intros h Ht0 Hd.
    destruct (feed_pending_stationary s location h w') as (H1 & _ & H2 & H3);
      try congruence.
    rewrite H2, H3, Hts. repeat split; trivial.
  - intros Hp0 Hd.
    destruct (feed_parked_far s location w') as (H1 & H2); try congruence.
    split; [apply emitted_app, H1 | exact H2].
  - intros Hp0 Hd.
    destruct (feed_parked_close s location w') as (H1 & H2); try congruence.
    split; [apply emitted_app, H1 | exact H2].
  - intros Hl0. rewrite (feed_no_last s w Hl0).
    repeat split. apply emitted_app. reflexivity.
Qed.

Lemma getCurrentLocation_sets_baseline_witness :
  (lastLocation (getCurrentLocation (Some p0) initial) = Some p0 /\
   stationaryTimer (feed p_near (getCurrentLocation (Some p0) initial)) =
   Some 1%nat /\
   timers (feed p_near (getCurrentLocation (Some p0) initial)) =
   [mkTimeout 1 30000 p_near]) /\
  (lastLocation (getCurrentLocation (Some p_far) parked_at_p0) = Some p_far /\
   emitted (getCurrentLocation (Some p_far) parked_at_p0)
           (feed p0 (getCurrentLocation (Some p_far) parked_at_p0)) =
   [LocationUpdate p0; LeavingDetected p_far]).
Proof.
  split.
  - destruct (getCurrentLocation_sets_baseline initial p0 p_near)
      as ((H1 & _) & H2 & _).
    destruct H2 as [H2 H3];
      [reflexivity | reflexivity | generalize d_p0_near; lra |].
    repeat split; assumption.
  - destruct (getCurrentLocation_sets_baseline parked_at_p0 p_far p0)
      as ((H1 & _) & _ & _ & H2 & _).
    destruct H2 as [H2 _];
      [reflexivity | rewrite calculateDistance_sym; generalize d_p0_far; lra |].
    split; assumption.
Defined.

(** ** Invariants of the timer table and of the watches *)

Lemma feed_timer_sync (s : Coord) (w : World) : timer_sync w -> timer_sync (feed s w).
Proof.
  destruct w as [wid last parked tm clk tms nt ws nw cs].
  unfold timer_sync; cbn [stationaryTimer timers]; intros H.
  destruct last as [l |]; [| exact H].
  destruct tm as [h |].
  - destruct H as ([h' d c] & -> & <-).
    eval_service. rewrite Nat.eqb_refl.
    destruct (JS.ltb (calculateDistance l s) 20), parked;
      try destruct (JS.ltb 50 (calculateDistance l s));
      eval_service; try reflexivity;
      exists (mkTimeout h' d c); split; reflexivity.
  - subst tms. eval_service.
    destruct (JS.ltb (calculateDistance l s) 20), parked;
      try destruct (JS.ltb 50 (calculateDistance l s));
      eval_service; try reflexivity;
      eexists; split; reflexivity.
Qed.

Lemma deliver_timer_sync (c : Coord) (w : World) :
  timer_sync w -> timer_sync (deliver c w).
Proof.
  unfold deliver. generalize (watches w) as ids.
  intros ids; revert w; induction ids as [| i ids IH]; intros w H.
  - exact H.
  - apply IH, feed_timer_sync, H.
Qed.

Lemma stop_timer_sync (w : World) :
  timer_sync w -> timer_sync (stopLocationTracking w).
Proof.
  destruct w as [wid last parked tm clk tms nt ws nw cs].
  unfold timer_sync; cbn [stationaryTimer timers]; intros H.
  destruct tm as [h |].
  - destruct H as ([h' d c] & -> & <-).
    destruct wid; eval_service; rewrite Nat.eqb_refl; reflexivity.
  - subst tms. destruct wid; reflexivity.
Qed.

Lemma runTimers_timer_sync (w : World) : timer_sync w -> timer_sync (runTimers w).
Proof.
  destruct w as [wid last parked tm clk tms nt ws nw cs].
  unfold timer_sync; cbn [stationaryTimer timers]; intros H.
  destruct tm as [h |].
  - destruct H as ([h' d c] & -> & <-).
    eval_service. destruct (d <=? clk)%Z; eval_service;
      [reflexivity | exists (mkTimeout h' d c); split; reflexivity].
  - subst tms; reflexivity.
Qed.

Lemma step_timer_sync (w : World) (i : Input) : timer_sync w -> timer_sync (step w i).
Proof.
  destruct i; cbn [step].
  - intros H; exact H.
  - apply stop_timer_sync.
  - apply deliver_timer_sync.
  - destruct answer; intros H; exact H.
  - intros H; exact H.
  - apply runTimers_timer_sync.
Qed.

Lemma run_timer_sync (ins : list Input) (w : World) :
  timer_sync w -> timer_sync (run ins w).
Proof.
  revert w; induction ins as [| i ins IH]; intros w H.
  - exact H.
  - rewrite run_cons. apply IH, step_timer_sync, H.
Qed.

Lemma timer_sync_length (w : World) : timer_sync w -> (length (timers w) <= 1)%nat.
Proof.
  unfold timer_sync; destruct (stationaryTimer w).
  - intros (t & -> & _); cbn; lia.
  - intros ->; cbn; lia.
Qed.

(** With a timer handle stored, a feed does not call [setTimeout]: no handle
    is issued and nothing is added to the timer table. *)
Lemma feed_pending_no_setTimeout (s : Coord) (w : World) :
  stationaryTimer w <> None ->
  nextTimer (feed s w) = nextTimer w /\ incl (timers (feed s w)) (timers w).
Proof.
  destruct w as [wid last parked tm clk tms nt ws nw cs].
  cbn [stationaryTimer nextTimer timers]. intros H.
  destruct tm as [h |]; [clear H | contradiction].
  destruct last as [l |]; [| split; [reflexivity | apply incl_refl]].
  assert (Hf : incl (filter (fun t => negb (Nat.eqb (handle t) h)) tms) tms)
    by apply incl_filter.
  unfold feed, detectParkingState.
  cbn [lastLocation isParked stationaryTimer invoke].
  destruct (JS.ltb (calculateDistance l s) 20), parked;
    try destruct (JS.ltb 50 (calculateDistance l s));
    (split; [reflexivity | first [apply incl_refl | exact Hf]]).
Qed.

(** C7: at most one confirm-timer is pending at any time.  After every
    sequence of inputs the timer table holds at most one timeout, also after
    one more feed; and a feed that arrives while a timer is pending does not
    schedule another: no new handle is issued and no timeout is added. *)
Theorem at_most_one_timer (ins : list Input) (s : Coord) :
  let w := run ins initial in
  (length (timers w) <= 1)%nat /\
  (length (timers (feed s w)) <= 1)%nat /\
  (stationaryTimer w <> None ->
   nextTimer (feed s w) = nextTimer w /\ incl (timers (feed s w)) (timers w)).
Proof.
  intros w.
  assert (H : timer_sync w) by (apply run_timer_sync; reflexivity).
  split; [| split].
  - apply timer_sync_length, H.
  - apply timer_sync_length, feed_timer_sync, H.
  - apply feed_pending_no_setTimeout.
Qed.

Lemma at_most_one_timer_witness :
  let w := run [Start; Position p0; Position p0] initial in
  stationaryTimer w = Some 1%nat /\
  nextTimer (feed p_near w) = nextTimer w /\
  incl (timers (feed p_near w)) (timers w).
Proof.
  cbv zeta. split.
  - run_all. reflexivity.
  - apply (at_most_one_timer [Start; Position p0; Position p0] p_near).
    run_all. discriminate.
Defined.

(** A feed touches neither the watches nor [watchId]. *)
Lemma feed_watch_frame (s : Coord) (w : World) :
  watches (feed s w) = watches w /\ watchId (feed s w) = watchId w.
Proof.
  destruct w as [wid last parked tm clk tms nt ws nw cs].
  destruct last as [l |]; [| split; reflexivity].
  unfold feed, detectParkingState.
  cbn [lastLocation isParked stationaryTimer invoke].
  destruct (JS.ltb (calculateDistance l s) 20), parked, tm;
    try destruct (JS.ltb 50 (calculateDistance l s));
    split; reflexivity.
Qed.

Lemma consistent_step (w : World) (i : Input) :
  timer_sync w /\ session_sync w -> (i = Start -> watchId w = None) ->
  timer_sync (step w i) /\ session_sync (step w i).
Proof.
  intros [Ht [Hw Hn]] Hi. split; [apply step_timer_sync, Ht |].
  destruct w as [wid last parked tm clk tms nt ws nw cs].
  unfold session_sync, timer_sync in *.
  cbn [watches watchId stationaryTimer timers] in Ht, Hw, Hn, Hi.
  destruct i; cbn [step].
  - specialize (Hi eq_refl). subst wid ws.
    split; [reflexivity | discriminate].
  - destruct wid as [id |].
    + subst ws. eval_service. rewrite Nat.eqb_refl.
      destruct tm; split; reflexivity.
    + rewrite (Hn eq_refl). split; [exact Hw | reflexivity].
  - destruct wid as [id |]; subst ws.
    + unfold deliver; cbn [watches fold_left].
      destruct (feed_watch_frame c (mkWorld (Some id) last parked tm clk tms nt
                                            [id] nw cs)) as [-> ->].
      split; [reflexivity | discriminate].
    + split; [reflexivity | exact Hn].
  - destruct answer; split; assumption.
  - split; assumption.
  - destruct tm as [h |].
    + destruct Ht as ([h' d c] & -> & <-).
      eval_service. destruct (d <=? clk)%Z; eval_service.
      * split; [exact Hw | reflexivity].
      * split; [exact Hw | exact Hn].
    + subst tms. split; assumption.
Qed.

Lemma reachable_consistent (w : World) : reachable w -> timer_sync w /\ session_sync w.
Proof.
  induction 1 as [| w i _ IH Hi].
  - repeat split.
  - apply consistent_step; assumption.
Qed.

(** With no watch active and no timeout pending, nothing but a start makes
    the service invoke a callback. *)
Lemma quiet_step (w : World) (i : Input) :
  watches w = [] -> timers w = [] -> i <> Start ->
  watches (step w i) = [] /\ timers (step w i) = [] /\ calls (step w i) = calls w.
Proof.
  destruct w as [wid last parked tm clk tms nt ws nw cs].
  cbn [watches timers calls]. intros -> -> Hi.
  destruct i; cbn [step]; try contradiction.
  - destruct wid, tm; repeat split.
  - repeat split.
  - destruct answer; repeat split.
  - repeat split.
  - repeat split.
Qed.

Lemma quiet_run (ins : list Input) (w : World) :
  watches w = [] -> timers w = [] -> ~ In Start ins ->
  calls (run ins w) = calls w.
Proof.
  revert w; induction ins as [| i ins IH]; intros w Hw Ht Hins.
  - reflexivity.
  - rewrite run_cons.
    destruct (quiet_step w i Hw Ht) as (Hw' & Ht' & Hc).
    + intros ->; apply Hins; left; reflexivity.
    + rewrite <- Hc. apply IH; trivial.
      intros H; apply Hins; right; exact H.
Qed.

Lemma stop_idempotent (w : World) :
  stopLocationTracking (stopLocationTracking w) = stopLocationTracking w.
Proof.
  destruct w as [wid last parked tm clk tms nt ws nw cs].
  destruct wid, tm; reflexivity.
Qed.

Lemma stop_quiet (w : World) :
  timer_sync w -> session_sync w ->
  watches (stopLocationTracking w) = [] /\ timers (stopLocationTracking w) = [] /\
  calls (stopLocationTracking w) = calls w.
Proof.
  destruct w as [wid last parked tm clk tms nt ws nw cs].
  unfold timer_sync, session_sync.
  cbn [watches watchId stationaryTimer timers]. intros Ht [Hw Hn].
  subst ws. destruct wid as [id |].
  - destruct tm as [h |].
    + destruct Ht as ([h' d c] & -> & <-).
      eval_service. rewrite !Nat.eqb_refl. repeat split.
    + subst tms. eval_service. rewrite !Nat.eqb_refl. repeat split.
  - rewrite (Hn eq_refl) in Ht. subst tms. rewrite (Hn eq_refl). repeat split.
Qed.

Lemma stop_keeps (w : World) :
  isParked (stopLocationTracking w) = isParked w /\
  lastLocation (stopLocationTracking w) = lastLocation w /\
  stationaryTimer (stopLocationTracking w) = None /\
  watchId (stopLocationTracking w) = None.
Proof.
  destruct w as [wid last parked tm clk tms nt ws nw cs].
  destruct wid, tm; repeat split.
Qed.

(** X21: when tracking is only ever started while it is not running, a
    stop silences the service: the pending timer is cancelled and the watch
    cleared, and no callback at all is invoked afterwards, whatever time
    passes and whatever else happens short of a new start.  In such a state
    stopping a service that is not tracking changes nothing, and stopping is
    idempotent. *)
Theorem stop_cancels_pending_park (w : World) :
  reachable w ->
  (timers (stopLocationTracking w) = [] /\
   watches (stopLocationTracking w) = []) /\
  (forall ins, ~ In Start ins ->
               emitted w (run ins (stopLocationTracking w)) = []) /\
  (watchId w = None -> stopLocationTracking w = w) /\
  stopLocationTracking (stopLocationTracking w) = stopLocationTracking w.
Proof.
  intros Hr. destruct (reachable_consistent w Hr) as [Ht Hs].
  destruct (stop_quiet w Ht Hs) as (Hw' & Ht' & Hc).
  repeat split; trivial.
  - intros ins Hins. apply emitted_app.
    rewrite (quiet_run ins _ Hw' Ht' Hins), Hc, app_nil_r. reflexivity.
  - intros Hn. destruct Hs as [_ Hs]. specialize (Hs Hn).
    destruct w as [wid last parked tm clk tms nt ws nw cs].
    cbn [watchId stationaryTimer] in Hn, Hs; subst.
    reflexivity.
  - apply stop_idempotent.
Qed.

Lemma stop_clears_timers (w : World) :
  timer_sync w -> timers (stopLocationTracking w) = [].
Proof.
  destruct w as [wid last parked tm clk tms nt ws nw cs].
  unfold timer_sync; cbn [stationaryTimer timers]; intros H.
  destruct tm as [h |].
  - destruct H as ([h' d c] & -> & <-).
    destruct wid; eval_service; rewrite Nat.eqb_refl; reflexivity.
  - subst tms. destruct wid; reflexivity.
Qed.

(** Without the assumption on how tracking was started: after any inputs
    at all, a stop leaves no timeout pending, and no callback is invoked
    while time passes, as long as no position is delivered. *)
Lemma stop_then_time_passes (ins later : list Input) :
  forallb passive later = true ->
  emitted (run ins initial)
          (run later (stopLocationTracking (run ins initial))) = [].
Proof.
  intros Hl. apply emitted_app. rewrite app_nil_r.
  assert (Ht : timers (stopLocationTracking (run ins initial)) = [])
    by (apply stop_clears_timers, run_timer_sync; reflexivity).
  assert (Hc : calls (stopLocationTracking (run ins initial)) =
               calls (run ins initial)).
  { destruct (run ins initial) as [wid last parked tm clk tms nt ws nw cs].
    destruct wid, tm; reflexivity. }
  rewrite <- Hc. clear Hc.
  revert Ht. generalize (stopLocationTracking (run ins initial)) as w.
  induction later as [| i later IH]; intros w Ht; [reflexivity |].
  cbn [forallb] in Hl. apply andb_prop in Hl as [Hi Hl].
  rewrite run_cons.
  assert (Hs : timers (step w i) = [] /\ calls (step w i) = calls w).
  { destruct w as [wid last parked tm clk tms nt ws nw cs].
    cbn [timers] in Ht; subst tms.
    destruct i; try discriminate Hi; cbn [step].
    - destruct wid, tm; split; reflexivity.
    - destruct answer; split; reflexivity.
    - split; reflexivity.
    - split; reflexivity. }
  destruct Hs as [Ht' Hc']. rewrite <- Hc'. apply IH; assumption.
Qed.

Lemma stop_cancels_pending_park_witness :
  stationaryTimer timer_pending = Some 1%nat /\
  (timers (stopLocationTracking timer_pending) = [] /\
   watches (stopLocationTracking timer_pending) = []) /\
  (forall ins, ~ In Start ins ->
               emitted timer_pending (run ins (stopLocationTracking timer_pending)) = []) /\
  (watchId timer_pending = None -> stopLocationTracking timer_pending = timer_pending) /\
  stopLocationTracking (stopLocationTracking timer_pending) =
  stopLocationTracking timer_pending.
Proof.
  split.
  - rewrite timer_pending_eq. reflexivity.
  - apply (stop_cancels_pending_park timer_pending).
    unfold timer_pending.
    apply reach_step; [apply reach_step; [apply reach_step |] |].
    + exact reach_initial.
    + reflexivity.
    + discriminate.
    + discriminate.
Defined.


(** C5 (as amended): the machine is created empty (not tracking, not
    parked, no stored coordinate, no timer, no watch).  Stopping clears the
    stored watch, which leaves the host's active watches while the others
    stay, and cancels the pending timer; when tracking was only started
    while not running, no watch is left.  But the parked flag and the stored
    coordinate survive [stopLocationTracking] and a following
    [startLocationTracking], so a restarted machine is not a fresh one. *)
Theorem stop_keeps_parked_state :
  (watchId initial = None /\ lastLocation initial = None /\
   isParked initial = false /\ stationaryTimer initial = None /\
   timers initial = [] /\ watches initial = []) /\
  (forall w : World,
      isParked (stopLocationTracking w) = isParked w /\
      lastLocation (stopLocationTracking w) = lastLocation w /\
      stationaryTimer (stopLocationTracking w) = None /\
      watchId (stopLocationTracking w) = None /\
      isParked (startLocationTracking (stopLocationTracking w)) = isParked w /\
      lastLocation (startLocationTracking (stopLocationTracking w)) =
      lastLocation w /\
      stationaryTimer (startLocationTracking (stopLocationTracking w)) = None) /\
  (forall ins : list Input, timers (stopLocationTracking (run ins initial)) = []) /\
  (forall w : World,
      watches (stopLocationTracking w) =
      match watchId w with
      | Some id => filter (fun i => negb (Nat.eqb i id)) (watches w)
      | None => watches w
      end) /\
  (forall (w : World) (id : nat),
      watchId w = Some id -> ~ In id (watches (stopLocationTracking w))) /\
  (forall w : World, reachable w -> watches (stopLocationTracking w) = []).
Proof.
  assert (Hw : forall w : World,
             watches (stopLocationTracking w) =
             match watchId w with
             | Some id => filter (fun i => negb (Nat.eqb i id)) (watches w)
             | None => watches w
             end).
  { intros w. destruct w as [wid last parked tm clk tms nt ws nw cs].
    destruct wid, tm; reflexivity. }
  split; [repeat split | split; [| split; [| split; [| split]]]].
  - intros w. destruct (stop_keeps w) as (H1 & H2 & H3 & H4).
    repeat split; trivial.
  - intros ins. apply stop_clears_timers, run_timer_sync. reflexivity.
  - exact Hw.
  - intros w id Hid Hin. rewrite Hw, Hid in Hin.
    apply filter_In in Hin as [_ Hin]. rewrite Nat.eqb_refl in Hin.
    discriminate Hin.
  - intros w Hr. destruct (reachable_consistent w Hr) as [Ht Hs].
    destruct (stop_quiet w Ht Hs) as (H & _). exact H.
Qed.

(** C5 as stated fails: after a confirmed park at [p0], a stop and a new
    start, the machine is still parked with [p0] stored, and the first sample
    of the new session, 100 m away, emits a leaving event; on a freshly
    created machine the same first sample emits none. *)
Lemma parked_state_survives_stop :
  let w := run (park_at_p0 ++ [Stop; Start]) initial in
  isParked w = true /\ lastLocation w = Some p0 /\
  emitted w (step w (Position p_far)) =
  [LocationUpdate p_far; LeavingDetected p0] /\
  emitted (step initial Start) (step (step initial Start) (Position p_far)) =
  [LocationUpdate p_far].
Proof.
  cbv zeta. rewrite run_restarted_parked. repeat split.
  feed_eval. reflexivity.
Qed.

(** ** More about the detection: what a feed does, in full *)

(** The five outcomes of a feed.  [d] is the distance from the stored
    coordinate to the sample. *)
Lemma feed_cases (s : Coord) (w : World) :
  (lastLocation w = None /\
   feed s w =
   mkWorld (watchId w) (Some s) (isParked w) (stationaryTimer w) (clock w)
           (timers w) (nextTimer w) (watches w) (nextWatch w)
           (calls w ++ [LocationUpdate s])) \/
  exists l, lastLocation w = Some l /\
    ((calculateDistance l s < 20 /\
      (isParked w = true \/ stationaryTimer w <> None) /\
      feed s w =
      mkWorld (watchId w) (Some s) (isParked w) (stationaryTimer w) (clock w)
              (timers w) (nextTimer w) (watches w) (nextWatch w)
              (calls w ++ [LocationUpdate s])) \/
     (calculateDistance l s < 20 /\
      isParked w = false /\ stationaryTimer w = None /\
      feed s w =
      mkWorld (watchId w) (Some s) false (Some (nextTimer w)) (clock w)
              (timers w ++ [mkTimeout (nextTimer w) (clock w + 30000) s])
              (S (nextTimer w)) (watches w) (nextWatch w)
              (calls w ++ [LocationUpdate s])) \/
     (20 <= calculateDistance l s /\
      (isParked w = false \/ calculateDistance l s <= 50) /\
      feed s w =
      mkWorld (watchId w) (Some s) (isParked w) None (clock w)
              (cleared w) (nextTimer w) (watches w) (nextWatch w)
              (calls w ++ [LocationUpdate s])) \/
     (50 < calculateDistance l s /\
      isParked w = true /\
      feed s w =
      mkWorld (watchId w) (Some s) false None (clock w)
              (cleared w) (nextTimer w) (watches w) (nextWatch w)
              ((calls w ++ [LocationUpdate s]) ++ [LeavingDetected l]))).
Proof.
  destruct w as [wid last parked tm clk tms nt ws nw cs].
  destruct last as [l |]; [right; exists l; split; [reflexivity |] | left; split; reflexivity].
  cbn [isParked stationaryTimer watchId clock timers nextTimer watches nextWatch calls].
  destruct (Rlt_le_dec (calculateDistance l s) 20) as [Hs | Hs].
  - destruct parked.
    + left. split; [exact Hs | split; [left; reflexivity |]].
      eval_service. rewrite (ltb_true _ _ Hs). reflexivity.
    + destruct tm as [h |].
      * left. split; [exact Hs | split; [right; discriminate |]].
        eval_service. rewrite (ltb_true _ _ Hs). reflexivity.
      * right; left. split; [exact Hs | split; [reflexivity | split; [reflexivity |]]].
        eval_service. rewrite (ltb_true _ _ Hs). reflexivity.
  - right; right.
    destruct (Rlt_le_dec 50 (calculateDistance l s)) as [Hf | Hf].
    + destruct parked.
      * right. split; [exact Hf | split; [reflexivity |]].
        eval_service. rewrite (ltb_false _ _ Hs), (ltb_true _ _ Hf).
        destruct tm; reflexivity.
      * left. split; [exact Hs | split; [left; reflexivity |]].
        eval_service. rewrite (ltb_false _ _ Hs).
        destruct tm; reflexivity.
    + left. split; [exact Hs | split; [right; exact Hf |]].
      eval_service. rewrite (ltb_false _ _ Hs), (ltb_false _ _ Hf).
      destruct tm, parked; reflexivity.
Qed.

(** ** The detection invariant *)

Lemma alternate_app (p : bool) (cs cs' : list Call) :
  alternate p (cs ++ cs') =
  match alternate p cs with
  | Some q => alternate q cs'
  | None => None
  end.
Proof.
  revert p; induction cs as [| c cs IH]; intros p; [reflexivity |].
  destruct c; cbn [app alternate]; [apply IH | |]; destruct p; trivial.
Qed.

Lemma feed_detection_inv (s : Coord) (w : World) :
  detection_inv w -> detection_inv (feed s w).
Proof.
  intros (Hsync & Htp & Htl & Hpl & Halt).
  split; [apply feed_timer_sync, Hsync |].
  destruct (feed_cases s w)
    as [[Hl E] | (l & Hl & [(Hd & Hc & E) | [(Hd & Hp & Ht & E)
                           | [(Hd & Hc & E) | (Hd & Hp & E)]]])];
    rewrite E; cbn [stationaryTimer isParked lastLocation calls];
    rewrite ?alternate_app, Halt; cbn [alternate];
    try rewrite Hp; cbn [alternate];
    repeat split; trivial; intros H; solve [discriminate | contradiction].
Qed.

Lemma deliver_preserves (P : World -> Prop) (c : Coord) :
  (forall w, P w -> P (feed c w)) -> forall w, P w -> P (deliver c w).
Proof.
  intros Hf w. unfold deliver. generalize (watches w) as ids.
  intros ids; revert w; induction ids as [| i ids IH]; intros w H.
  - exact H.
  - apply IH, Hf, H.
Qed.

Lemma runTimers_detection_inv (w : World) :
  detection_inv w -> detection_inv (runTimers w).
Proof.
  intros (Hsync & Htp & Htl & Hpl & Halt).
  split; [apply runTimers_timer_sync, Hsync |].
  destruct w as [wid last parked tm clk tms nt ws nw cs].
  unfold timer_sync in Hsync.
  cbn [stationaryTimer isParked lastLocation calls timers] in *.
  destruct tm as [h |].
  - destruct Hsync as ([h' d c] & -> & <-).
    rewrite (Htp ltac:(discriminate)) in *.
    eval_service. destruct (d <=? clk)%Z; eval_service.
    + rewrite alternate_app, Halt.
      repeat split; trivial; intros H;
        first [contradiction | apply Htl; discriminate].
    + repeat split; trivial.
  - subst tms. repeat split; trivial.
Qed.

Lemma step_detection_inv (w : World) (i : Input) :
  detection_inv w -> detection_inv (step w i).
Proof.
  destruct i; cbn [step].
  - intros (Hsync & Htp & Htl & Hpl & Halt). split; [exact Hsync |].
    destruct w; repeat split; trivial.
  - intros (Hsync & Htp & Htl & Hpl & Halt).
    split; [apply stop_timer_sync, Hsync |].
    destruct w as [wid last parked tm clk tms nt ws nw cs].
    cbn [stationaryTimer isParked lastLocation calls] in *.
    destruct wid, tm; repeat split; trivial; intros H; contradiction.
  - apply deliver_preserves. intros w'. apply feed_detection_inv.
  - intros (Hsync & Htp & Htl & Hpl & Halt).
    destruct answer as [c |]; [| repeat split; trivial].
    destruct w as [wid last parked tm clk tms nt ws nw cs].
    repeat split; trivial; discriminate.
  - intros (Hsync & Htp & Htl & Hpl & Halt).
    destruct w; repeat split; trivial.
  - apply runTimers_detection_inv.
Qed.

Lemma run_detection_inv (ins : list Input) (w : World) :
  detection_inv w -> detection_inv (run ins w).
Proof.
  revert w; induction ins as [| i ins IH]; intros w H.
  - exact H.
  - rewrite run_cons. apply IH, step_detection_inv, H.
Qed.

Lemma initial_detection_inv : detection_inv initial.
Proof.
  repeat split; trivial; intros H; solve [discriminate | contradiction].
Qed.

(** X1: whatever the inputs, park and leaving events alternate, beginning
    with a park: no park event is repeated before a leaving event, no
    leaving event comes without a park before it, and the parked flag says
    whether the last event was a park. *)
Theorem events_alternate (ins : list Input) :
  alternate false (calls (run ins initial)) = Some (isParked (run ins initial)).
Proof.
  apply (run_detection_inv ins initial initial_detection_inv).
Qed.

(** X2: whatever the inputs, while the machine is parked no confirm-timer
    is pending (neither a stored handle nor a timeout in the host's table),
    and a coordinate is stored. *)
Theorem parked_no_timer (ins : list Input) :
  isParked (run ins initial) = true ->
  stationaryTimer (run ins initial) = None /\
  timers (run ins initial) = [] /\
  lastLocation (run ins initial) <> None.
Proof.
  intros Hp.
  destruct (run_detection_inv ins initial initial_detection_inv)
    as (Hsync & Htp & _ & Hpl & _).
  assert (Ht : stationaryTimer (run ins initial) = None).
  { destruct (stationaryTimer (run ins initial)) as [h |] eqn:E; [| reflexivity].
    rewrite Htp in Hp; [discriminate Hp | discriminate]. }
  unfold timer_sync in Hsync. rewrite Ht in Hsync.
  repeat split; trivial. apply Hpl, Hp.
Qed.

Lemma parked_no_timer_witness :
  stationaryTimer (run park_at_p0 initial) = None /\
  timers (run park_at_p0 initial) = [] /\
  lastLocation (run park_at_p0 initial) <> None.
Proof.
  apply (parked_no_timer park_at_p0).
  rewrite run_park_at_p0. reflexivity.
Defined.

(** ** Where reported coordinates come from *)

Lemma cleared_incl (w : World) (t : Timeout) : In t (cleared w) -> In t (timers w).
Proof.
  unfold cleared; destruct (stationaryTimer w); [| trivial].
  intros H; apply filter_In in H; tauto.
Qed.

Ltac in_log :=
  repeat match goal with
         | H : In _ (_ ++ _) |- _ => apply in_app_iff in H; destruct H as [H | H]
         | H : In _ [_] |- _ => destruct H as [H | []]
         | H : Some _ = Some _ |- _ => injection H as H
         | H : LocationUpdate _ = _ |- _ => try discriminate H; injection H as H
         | H : LeavingDetected _ = _ |- _ => try discriminate H; injection H as H
         | H : ParkDetected _ = _ |- _ => try discriminate H; injection H as H
         | H : mkTimeout _ _ _ = _ |- _ => rewrite <- H in *; clear H
         end;
  subst; unfold seen in *; rewrite ?in_app_iff; cbn [In captured].

Lemma feed_provenance (F : list Coord) (s : Coord) (w : World) :
  provenance F w -> provenance F (feed s w).
Proof.
  intros (Hsync & Hti & Hl & Hpk & Hlv).
  split; [apply feed_timer_sync, Hsync |].
  destruct (feed_cases s w)
    as [[Hl0 E] | (l & Hl0 & [(Hd & Hc & E) | [(Hd & Hp & Ht & E)
                            | [(Hd & Hc & E) | (Hd & Hp & E)]]])];
    rewrite E; unfold seen; cbn [timers lastLocation calls];
    (split; [intros t Hx | split; [intros x Hx | split; intros x Hx]]);
    try apply cleared_incl in Hx; in_log; auto;
    try (destruct (Hlv _ Hx); auto);
    try (destruct (Hl _ Hl0); auto).
Qed.

Lemma provenance_more (F F' : list Coord) (w : World) :
  provenance F w -> provenance (F ++ F') w.
Proof.
  intros (Hsync & Hti & Hl & Hpk & Hlv). unfold provenance, seen in *.
  repeat split; trivial; intros x Hx; rewrite in_app_iff;
    [destruct (Hl _ Hx) | destruct (Hlv _ Hx)]; auto.
Qed.

(** The two outcomes of a turn of the timers when the table matches the
    stored handle: nothing is due, or the one timeout runs. *)
Lemma runTimers_cases (w : World) :
  timer_sync w ->
  runTimers w = w \/
  exists t, timers w = [t] /\ stationaryTimer w = Some (handle t) /\
            (due t <= clock w)%Z /\
            runTimers w =
            mkWorld (watchId w) (lastLocation w) true None (clock w) []
                    (nextTimer w) (watches w) (nextWatch w)
                    (calls w ++ [ParkDetected (captured t)]).
Proof.
  destruct w as [wid last parked tm clk tms nt ws nw cs].
  unfold timer_sync. cbn [stationaryTimer timers]. intros Hsync.
  destruct tm as [h |].
  - destruct Hsync as ([h' d c] & -> & <-).
    destruct (d <=? clk)%Z eqn:Hd.
    + right. exists (mkTimeout h' d c).
      repeat split; [apply Z.leb_le, Hd |].
      eval_service. rewrite Hd. reflexivity.
    + left. eval_service. rewrite Hd. reflexivity.
  - subst tms. left. reflexivity.
Qed.

Lemma runTimers_provenance (F : list Coord) (w : World) :
  provenance F w -> provenance F (runTimers w).
Proof.
  intros H. pose proof H as (Hsync & Hti & Hl & Hpk & Hlv).
  destruct (runTimers_cases w Hsync) as [-> | (t & Ht & Hh & Hd & E)];
    [exact H |].
  split; [apply runTimers_timer_sync, Hsync |].
  assert (Hc : In (LocationUpdate (captured t)) (calls w))
    by (apply Hti; rewrite Ht; left; reflexivity).
  rewrite E; unfold seen; cbn [timers lastLocation calls].
  (split; [intros x Hx | split; [intros x Hx | split; intros x Hx]]);
    in_log; auto; try contradiction.
  - destruct (Hl _ Hx); auto.
  - destruct (Hlv _ Hx); auto.
Qed.

Lemma step_provenance (F : list Coord) (w : World) (i : Input) :
  provenance F w -> provenance (F ++ fixes_of [i]) (step w i).
Proof.
  destruct i; cbn [step fixes_of]; rewrite ?app_nil_r.
  - intros (Hsync & Hti & Hl & Hpk & Hlv). split; [exact Hsync |].
    destruct w; repeat split; trivial.
  - intros (Hsync & Hti & Hl & Hpk & Hlv).
    split; [apply stop_timer_sync, Hsync |].
    destruct w as [wid last parked tm clk tms nt ws nw cs].
    unfold seen in *. cbn [stationaryTimer lastLocation calls timers] in *.
    destruct wid, tm; repeat split; trivial;
      intros t Hx; apply filter_In in Hx; apply Hti; tauto.
  - apply deliver_preserves. intros w'. apply feed_provenance.
  - intros H. destruct answer as [c |]; [| rewrite app_nil_r; exact H].
    destruct (provenance_more F [c] w H) as (Hsync & Hti & Hl & Hpk & Hlv).
    destruct w as [wid last parked tm clk tms nt ws nw cs].
    unfold seen in *. cbn [stationaryTimer lastLocation calls timers] in *.
    repeat split; trivial.
    intros l E; injection E as <-. right. apply in_app_iff. right; left; reflexivity.
  - intros (Hsync & Hti & Hl & Hpk & Hlv). destruct w; repeat split; trivial.
  - apply runTimers_provenance.
Qed.

Lemma fixes_of_cons (i : Input) (ins : list Input) :
  fixes_of (i :: ins) = fixes_of [i] ++ fixes_of ins.
Proof. destruct i as [| | c | [c |] | ms |]; reflexivity. Qed.

Lemma run_provenance (ins : list Input) (F : list Coord) (w : World) :
  provenance F w -> provenance (F ++ fixes_of ins) (run ins w).
Proof.
  revert F w; induction ins as [| i ins IH]; intros F w H.
  - rewrite app_nil_r. exact H.
  - rewrite run_cons, fixes_of_cons, app_assoc.
    apply IH, step_provenance, H.
Qed.

Lemma initial_provenance : provenance [] initial.
Proof.
  repeat split; try discriminate; intros x H; destruct H.
Qed.

(** X3: the coordinate of every park event is a sample that the location
    watch delivered before: [onParkingDetected] is never called with a
    coordinate that [onLocationUpdate] has not been called with. *)
Theorem park_coordinate_was_fed (ins : list Input) (c : Coord) :
  In (ParkDetected c) (calls (run ins initial)) ->
  In (LocationUpdate c) (calls (run ins initial)).
Proof.
  destruct (run_provenance ins [] initial initial_provenance)
    as (_ & _ & _ & Hpk & _).
  apply Hpk.
Qed.

Lemma park_coordinate_was_fed_witness :
  In (LocationUpdate p0) (calls (run park_at_p0 initial)).
Proof.
  apply (park_coordinate_was_fed park_at_p0 p0).
  rewrite run_park_at_p0. right; right; left; reflexivity.
Defined.

(** X4: the coordinate of every leaving event came from the location
    source: it is a sample the watch delivered before, or the answer of an
    earlier [getCurrentLocation]. *)
Theorem leaving_coordinate_was_seen (ins : list Input) (c : Coord) :
  In (LeavingDetected c) (calls (run ins initial)) ->
  In (LocationUpdate c) (calls (run ins initial)) \/ In c (fixes_of ins).
Proof.
  destruct (run_provenance ins [] initial initial_provenance)
    as (_ & _ & _ & _ & Hlv).
  apply Hlv.
Qed.

Lemma leaving_coordinate_was_seen_witness :
  In (LocationUpdate p0) (calls (run (park_at_p0 ++ [Position p_far]) initial)) \/
  In p0 (fixes_of (park_at_p0 ++ [Position p_far])).
Proof.
  apply (leaving_coordinate_was_seen (park_at_p0 ++ [Position p_far]) p0).
  rewrite run_app, run_park_at_p0. run_all.
  right; right; right; right; left; reflexivity.
Defined.

(** ** Movement, time and pending timers *)

Lemma cleared_nil (w : World) : timer_sync w -> cleared w = [].
Proof.
  unfold timer_sync, cleared. destruct (stationaryTimer w) as [h |]; [| trivial].
  intros (t & -> & <-). cbn. rewrite Nat.eqb_refl. reflexivity.
Qed.

(** With no timeout pending, inputs that deliver no position and start no
    tracking invoke no callback. *)
Lemma passive_run_quiet (later : list Input) (w : World) :
  timers w = [] -> forallb passive later = true ->
  calls (run later w) = calls w.
Proof.
  revert w; induction later as [| i later IH]; intros w Ht Hl; [reflexivity |].
  cbn [forallb] in Hl. apply andb_prop in Hl as [Hi Hl].
  rewrite run_cons.
  assert (Hs : timers (step w i) = [] /\ calls (step w i) = calls w).
  { destruct w as [wid last parked tm clk tms nt ws nw cs].
    cbn [timers] in Ht; subst tms.
    destruct i; try discriminate Hi; cbn [step].
    - destruct wid, tm; split; reflexivity.
    - destruct answer; split; reflexivity.
    - split; reflexivity.
    - split; reflexivity. }
  destruct Hs as [Ht' Hc']. rewrite <- Hc'. apply IH; assumption.
Qed.

(** X5: movement cancels a pending park.  When a sample is 20 m or more
    from the stored coordinate, the pending timeout is cleared, and no park
    event follows while time passes without further samples. *)
Theorem movement_cancels_pending_park
        (w : World) (l s : Coord) (later : list Input) :
  timer_sync w -> lastLocation w = Some l -> 20 <= calculateDistance l s ->
  forallb passive later = true ->
  timers (feed s w) = [] /\
  stationaryTimer (feed s w) = None /\
  no_park (emitted w (run later (feed s w))).
Proof.
  intros Hsync Hl Hd Hlater.
  assert (H : timers (feed s w) = [] /\ stationaryTimer (feed s w) = None /\
              exists out, calls (feed s w) = calls w ++ out /\ no_park out).
  { destruct (feed_cases s w)
      as [[Hl0 E] | (l' & Hl0 & [(Hd' & Hc & E) | [(Hd' & Hp & Ht & E)
                               | [(Hd' & Hc & E) | (Hd' & Hp & E)]]])];
      try congruence;
      try (rewrite Hl in Hl0; injection Hl0 as <-; lra);
      rewrite E; cbn [timers stationaryTimer calls];
      (split; [apply cleared_nil, Hsync | split; [reflexivity |]]).
    - exists [LocationUpdate s]. split; [reflexivity |].
      intros c [H | []]; discriminate H.
    - exists [LocationUpdate s; LeavingDetected l'].
      split; [rewrite <- app_assoc; reflexivity |].
      intros c [H | [H | []]]; discriminate H. }
  destruct H as (Ht & Hh & out & Hc & Hout).
  repeat split; trivial.
  rewrite (emitted_app w _ out); [exact Hout |].
  rewrite (passive_run_quiet later _ Ht Hlater). exact Hc.
Qed.

Lemma movement_cancels_pending_park_witness :
  timers (feed p_far pending_at_near) = [] /\
  stationaryTimer (feed p_far pending_at_near) = None /\
  no_park (emitted pending_at_near
                   (run [Advance 30000; RunTimers] (feed p_far pending_at_near))).
Proof.
  apply (movement_cancels_pending_park pending_at_near p_near p_far
                                       [Advance 30000; RunTimers]).
  - exists (mkTimeout 1 35000 p_near). split; reflexivity.
  - reflexivity.
  - generalize d_near_far; lra.
  - reflexivity.
Defined.

Lemma elapsed_nonneg (ins : list Input) : (0 <= elapsed ins)%Z.
Proof.
  induction ins as [| i ins IH]; [reflexivity |].
  destruct i; cbn [elapsed]; lia.
Qed.

Lemma elapsed_cons (i : Input) (ins : list Input) :
  elapsed (i :: ins) = (elapsed [i] + elapsed ins)%Z.
Proof. destruct i; cbn [elapsed]; lia. Qed.

Lemma no_park_app (out out' : list Call) :
  no_park out -> no_park out' -> no_park (out ++ out').
Proof.
  intros H H' c Hc. apply in_app_iff in Hc as [Hc | Hc]; [apply (H c Hc) | apply (H' c Hc)].
Qed.

(** A feed emits no park event, keeps the clock, and sets timeouts due 30 s
    after the current clock value only. *)
Lemma feed_young (T : Z) (s : Coord) (w : World) :
  (T <= clock w + 30000)%Z -> due_from T w ->
  due_from T (feed s w) /\ clock (feed s w) = clock w /\
  exists out, calls (feed s w) = calls w ++ out /\ no_park out.
Proof.
  intros HT Hdue.
  assert (H1 : no_park [LocationUpdate s])
    by (intros c [H | []]; discriminate H).
  destruct (feed_cases s w)
    as [[Hl0 E] | (l & Hl0 & [(Hd & Hc & E) | [(Hd & Hp & Ht & E)
                            | [(Hd & Hc & E) | (Hd & Hp & E)]]])];
    rewrite E; unfold due_from; cbn [timers clock calls];
    (split; [intros t Hx | split; [reflexivity |]]).
  - apply Hdue, Hx.
  - exists [LocationUpdate s]; split; trivial.
  - apply Hdue, Hx.
  - exists [LocationUpdate s]; split; trivial.
  - apply in_app_iff in Hx as [Hx | [<- | []]]; [apply Hdue, Hx | exact HT].
  - exists [LocationUpdate s]; split; trivial.
  - apply Hdue, cleared_incl, Hx.
  - exists [LocationUpdate s]; split; trivial.
  - apply Hdue, cleared_incl, Hx.
  - exists [LocationUpdate s; LeavingDetected l].
    split; [rewrite <- app_assoc; reflexivity |].
    intros c [H | [H | []]]; discriminate H.
Qed.

Lemma step_young (T : Z) (w : World) (i : Input) :
  timer_sync w -> due_from T w ->
  (clock w < T)%Z -> (T <= clock w + 30000)%Z ->
  due_from T (step w i) /\ clock (step w i) = (clock w + elapsed [i])%Z /\
  exists out, calls (step w i) = calls w ++ out /\ no_park out.
Proof.
  intros Hsync Hdue Hlt HT.
  assert (H0 : no_park []) by (intros c []).
  destruct i; cbn [step elapsed]; rewrite ?Z.add_0_r.
  - destruct w; repeat split; trivial. exists []; rewrite app_nil_r; auto.
  - destruct w as [wid last parked tm clk tms nt ws nw cs].
    unfold due_from in *. cbn [timers clock calls] in *.
    destruct wid, tm; (split; [| split; [reflexivity | exists []; rewrite app_nil_r; auto]]);
      intros t Hx; try apply filter_In in Hx; apply Hdue; tauto.
  - apply (deliver_preserves
             (fun w' => due_from T w' /\ clock w' = clock w /\
                        exists out, calls w' = calls w ++ out /\ no_park out)).
    + intros w' (Hdue' & Hclk & out & Hc & Hout).
      destruct (feed_young T c w') as (Hdue'' & Hclk' & out' & Hc' & Hout');
        [rewrite Hclk; exact HT | exact Hdue' |].
      split; [exact Hdue'' | split; [congruence |]].
      exists (out ++ out'). split; [| apply no_park_app; assumption].
      rewrite Hc', Hc, app_assoc. reflexivity.
    + split; [exact Hdue | split; [reflexivity | exists []; rewrite app_nil_r; auto]].
  - destruct answer; destruct w; repeat split; trivial;
      exists []; rewrite app_nil_r; auto.
  - destruct w; repeat split; trivial. exists []; rewrite app_nil_r; auto.
  - destruct (runTimers_cases w Hsync) as [-> | (t & Ht & Hh & Hd & E)].
    + repeat split; trivial. exists []; rewrite app_nil_r; auto.
    + assert (T <= due t)%Z by (apply Hdue; rewrite Ht; left; reflexivity).
      lia.
Qed.

Lemma run_young (T : Z) (ins : list Input) (w : World) :
  timer_sync w -> due_from T w ->
  (clock w + elapsed ins < T)%Z -> (T <= clock w + 30000)%Z ->
  exists out, calls (run ins w) = calls w ++ out /\ no_park out.
Proof.
  revert w; induction ins as [| i ins IH]; intros w Hsync Hdue Hlt HT.
  - exists []. rewrite app_nil_r. split; [reflexivity | intros c []].
  - rewrite elapsed_cons in Hlt.
    assert (H0 := elapsed_nonneg ins). assert (H1 := elapsed_nonneg [i]).
    destruct (step_young T w i Hsync Hdue) as (Hdue' & Hclk & out & Hc & Hout);
      [lia | exact HT |].
    destruct (IH (step w i)) as (out' & Hc' & Hout');
      [apply step_timer_sync, Hsync | exact Hdue' | lia | lia |].
    exists (out ++ out'). split; [| apply no_park_app; assumption].
    rewrite run_cons, Hc', Hc, app_assoc. reflexivity.
Qed.

(** X6: a park is never confirmed in less than 30 s.  From a state with no
    timer pending, no park event is emitted by any inputs during which less
    than 30000 ms pass, whatever samples arrive. *)
Theorem park_needs_30s (w : World) (ins : list Input) :
  stationaryTimer w = None -> timers w = [] -> (elapsed ins < 30000)%Z ->
  no_park (emitted w (run ins w)).
Proof.
  intros Hh Ht Hlt.
  destruct (run_young (clock w + 30000) ins w) as (out & Hc & Hout).
  - unfold timer_sync. rewrite Hh. exact Ht.
  - intros t Hx. rewrite Ht in Hx. destruct Hx.
  - lia.
  - lia.
  - rewrite (emitted_app _ _ _ Hc). exact Hout.
Qed.

Lemma park_needs_30s_witness :
  no_park (emitted initial
                   (run [Start; Position p0; Position p0; Advance 29999; RunTimers]
                        initial)).
Proof.
  apply (park_needs_30s initial
           [Start; Position p0; Position p0; Advance 29999; RunTimers]).
  - reflexivity.
  - reflexivity.
  - vm_compute. reflexivity.
Defined.

(** ** Runs of samples *)

Lemma feed_all_cons (s : Coord) (ss : list Coord) (w : World) :
  feed_all (s :: ss) w = feed_all ss (feed s w).
Proof. reflexivity. Qed.

(** X7: a pending confirmation survives any drift in small steps.  While a
    timer is pending, samples that are each less than 20 m from the one
    before them, however many and however far from the first in total, emit
    no event and leave the timer, and so the coordinate the park event will
    carry, as they are. *)
Theorem pending_survives_drift (ss : list Coord) (w : World) (h : nat) (l : Coord) :
  stationaryTimer w = Some h -> lastLocation w = Some l ->
  chain (fun d => d < 20) l ss ->
  timers (feed_all ss w) = timers w /\
  stationaryTimer (feed_all ss w) = Some h /\
  isParked (feed_all ss w) = isParked w /\
  emitted w (feed_all ss w) = map LocationUpdate ss.
Proof.
  intros Hh Hl Hch.
  assert (H : timers (feed_all ss w) = timers w /\
              stationaryTimer (feed_all ss w) = Some h /\
              isParked (feed_all ss w) = isParked w /\
              calls (feed_all ss w) = calls w ++ map LocationUpdate ss).
  { revert w l Hh Hl Hch. induction ss as [| s ss IH]; intros w l Hh Hl Hch.
    - cbn [map]. rewrite app_nil_r. repeat split; trivial.
    - destruct Hch as [Hd Hch]. rewrite feed_all_cons.
      destruct (feed_pending_stationary s l h w Hh Hl Hd) as (He & Hp & Hh' & Ht).
      destruct (IH (feed s w) s Hh' eq_refl Hch) as (Ht' & Hh'' & Hp' & Hc').
      repeat split; try congruence.
      rewrite Hc'. cbn [map].
      destruct (feed_calls s w) as [Hc | (l' & _ & _ & _ & Hc)].
      + rewrite Hc, <- app_assoc. reflexivity.
      + rewrite (emitted_app _ _ _ Hc) in He. discriminate He. }
  destruct H as (H1 & H2 & H3 & H4).
  repeat split; trivial. apply emitted_app, H4.
Qed.

Lemma pending_survives_drift_witness :
  timers (feed_all [p0; p_near; p0] pending_at_near) = timers pending_at_near /\
  stationaryTimer (feed_all [p0; p_near; p0] pending_at_near) = Some 1%nat /\
  isParked (feed_all [p0; p_near; p0] pending_at_near) = isParked pending_at_near /\
  emitted pending_at_near (feed_all [p0; p_near; p0] pending_at_near) =
  map LocationUpdate [p0; p_near; p0].
Proof.
  apply (pending_survives_drift [p0; p_near; p0] pending_at_near 1%nat p_near).
  - reflexivity.
  - reflexivity.
  - cbn [chain]. generalize d_near_p0 d_p0_near. intros. repeat split; lra.
Defined.

(** X8: leaving is never detected in steps of 50 m or less.  While parked,
    samples that are each at most 50 m from the one before them, however far
    from the parking position in total, emit no event and leave the machine
    parked. *)
Theorem parked_survives_short_steps (ss : list Coord) (w : World) (l : Coord) :
  isParked w = true -> lastLocation w = Some l ->
  chain (fun d => d <= 50) l ss ->
  isParked (feed_all ss w) = true /\
  emitted w (feed_all ss w) = map LocationUpdate ss.
Proof.
  intros Hp Hl Hch.
  assert (H : isParked (feed_all ss w) = true /\
              calls (feed_all ss w) = calls w ++ map LocationUpdate ss).
  { revert w l Hp Hl Hch. induction ss as [| s ss IH]; intros w l Hp Hl Hch.
    - cbn [map]. rewrite app_nil_r. split; [exact Hp | reflexivity].
    - destruct Hch as [Hd Hch]. rewrite feed_all_cons.
      destruct (feed_parked_close s l w Hp Hl Hd) as (Hc & Hp').
      destruct (IH (feed s w) s Hp' eq_refl Hch) as (Hp'' & Hc').
      split; [exact Hp'' |].
      rewrite Hc', Hc, <- app_assoc. reflexivity. }
  destruct H as (H1 & H2). split; [exact H1 | apply emitted_app, H2].
Qed.

Lemma parked_survives_short_steps_witness :
  isParked (feed_all [p_mid; p_beyond] parked_at_p0) = true /\
  emitted parked_at_p0 (feed_all [p_mid; p_beyond] parked_at_p0) =
  map LocationUpdate [p_mid; p_beyond].
Proof.
  apply (parked_survives_short_steps [p_mid; p_beyond] parked_at_p0 p0).
  - reflexivity.
  - reflexivity.
  - cbn [chain]. generalize d_p0_mid d_mid_beyond. intros. repeat split; lra.
Defined.

(** ** Watches *)

Lemma feed_keeps_watches (s : Coord) (w : World) :
  watches (feed s w) = watches w /\ watchId (feed s w) = watchId w /\
  nextWatch (feed s w) = nextWatch w.
Proof.
  destruct (feed_cases s w)
    as [[Hl0 E] | (l & Hl0 & [(Hd & Hc & E) | [(Hd & Hp & Ht & E)
                            | [(Hd & Hc & E) | (Hd & Hp & E)]]])];
    rewrite E; repeat split.
Qed.

Ltac unfold_ops :=
  lazy beta iota zeta delta
    [startLocationTracking stopLocationTracking watchPosition clearWatch
     clearTimeout set_watchId set_stationaryTimer set_timers watch_inv
     watchId stationaryTimer timers watches nextWatch].

Lemma step_watch_inv (w : World) (i : Input) :
  timer_sync w /\ watch_inv w -> timer_sync (step w i) /\ watch_inv (step w i).
Proof.
  intros [Hsync Hw]. split; [apply step_timer_sync, Hsync |].
  destruct i; cbn [step].
  - destruct w as [wid last parked tm clk tms nt ws nw cs].
    destruct Hw as [Hlt Hid]. cbn [watches nextWatch watchId] in Hlt, Hid.
    unfold_ops. split.
    + intros i Hi. apply in_app_iff in Hi as [Hi | [<- | []]]; [apply Hlt in Hi |]; lia.
    + intros id E. injection E as <-. apply in_app_iff. right; left; reflexivity.
  - destruct w as [wid last parked tm clk tms nt ws nw cs].
    destruct Hw as [Hlt Hid]. cbn [watches nextWatch watchId] in Hlt, Hid.
    destruct wid, tm; unfold_ops; (split; [| try discriminate; exact Hid]);
      intros i Hi; try apply filter_In in Hi; apply Hlt; tauto.
  - revert Hw. apply deliver_preserves. intros w' [Hlt Hid].
    destruct (feed_keeps_watches c w') as (E1 & E2 & E3).
    unfold watch_inv. rewrite E1, E2, E3. split; assumption.
  - destruct answer; destruct w; exact Hw.
  - destruct w; exact Hw.
  - destruct (runTimers_cases w Hsync) as [-> | (t & Ht & Hh & Hd & E)];
      [exact Hw | rewrite E; exact Hw].
Qed.

Lemma run_watch_inv (ins : list Input) (w : World) :
  timer_sync w /\ watch_inv w -> timer_sync (run ins w) /\ watch_inv (run ins w).
Proof.
  revert w; induction ins as [| i ins IH]; intros w H.
  - exact H.
  - rewrite run_cons. apply IH, step_watch_inv, H.
Qed.

Lemma feed_all_watches_grow (c : Coord) (ids : list nat) (w : World) :
  exists out, calls (fold_left (fun w _ => feed c w) ids w) = calls w ++ out.
Proof.
  revert w; induction ids as [| i ids IH]; intros w.
  - exists []. rewrite app_nil_r. reflexivity.
  - destruct (IH (feed c w)) as (out & Hc). cbn [fold_left]. rewrite Hc.
    destruct (feed_calls c w) as [E | (l & _ & _ & _ & E)]; rewrite E, <- app_assoc;
      eexists; reflexivity.
Qed.

(** With a watch active, a position reaches [onLocationUpdate]. *)
Lemma deliver_emits (c : Coord) (w : World) :
  watches w <> [] -> In (LocationUpdate c) (emitted w (deliver c w)).
Proof.
  unfold deliver. destruct (watches w) as [| i ids]; [contradiction |]. intros _.
  cbn [fold_left].
  destruct (feed_all_watches_grow c ids (feed c w)) as (out & Hc).
  destruct (feed_calls c w) as [E | (l & _ & _ & _ & E)];
    rewrite E, <- app_assoc in Hc; rewrite (emitted_app _ _ _ Hc);
    left; reflexivity.
Qed.

(** X9: a second start leaks the first watch.  When tracking is already
    running, [startLocationTracking] registers a new watch and overwrites
    [watchId]; [stopLocationTracking] then clears the new watch only: the
    service reports that it is not tracking, the earlier watch is still
    active, and every position still reaches the callbacks. *)
Theorem second_start_leaks_watch (ins : list Input) (id : nat) :
  watchId (run ins initial) = Some id ->
  let w' := run [Start; Stop] (run ins initial) in
  watchId w' = None /\
  In id (watches w') /\
  forall c, In (LocationUpdate c) (emitted w' (step w' (Position c))).
Proof.
  intros Hid w'.
  destruct (run_watch_inv ins initial) as [_ [Hlt Hin]].
  { split; [reflexivity |]. split; [intros i [] | discriminate]. }
  specialize (Hin id Hid). assert (Hn := Hlt id Hin).
  assert (H : watchId w' = None /\ In id (watches w')).
  { subst w'. destruct (run ins initial) as [wid last parked tm clk tms nt ws nw cs].
    cbn [watches nextWatch] in Hin, Hn.
    assert (Hf : In id (filter (fun i => negb (Nat.eqb i nw)) (ws ++ [nw]))).
    { apply filter_In. split; [apply in_app_iff; left; exact Hin |].
      apply negb_true_iff, Nat.eqb_neq. lia. }
    rewrite run_cons, run_cons, run_nil.
    destruct tm; (split; [reflexivity | exact Hf]). }
  destruct H as [H1 H2]. repeat split; trivial.
  intros c. cbn [step]. apply deliver_emits.
  intros E. rewrite E in H2. destruct H2.
Qed.

Lemma second_start_leaks_watch_witness :
  let w' := run [Start; Stop] (run [Start] initial) in
  watchId w' = None /\
  In 0%nat (watches w') /\
  forall c, In (LocationUpdate c) (emitted w' (step w' (Position c))).
Proof.
  apply (second_start_leaks_watch [Start] 0%nat). reflexivity.
Defined.

(** ** More about the distance *)

(** X11: between two positions of the same longitude whose latitudes differ
    by less than 180 degrees, the distance is the length of the meridian arc:
    6371000 m times the difference of the latitudes in radians, in either
    direction. *)
Theorem calculateDistance_on_meridian (lat1 lat2 lon : R) :
  Rabs (lat2 - lat1) < 180 ->
  calculateDistance (mkCoord lat1 lon) (mkCoord lat2 lon) =
  6371000 * (Rabs (lat2 - lat1) * PI / 180).
Proof.
  intros H. destruct (Rle_lt_dec lat1 lat2) as [Hle | Hlt].
  - rewrite Rabs_pos_eq in * by lra.
    apply calculateDistance_meridian. lra.
  - rewrite Rabs_left in * by lra.
    rewrite calculateDistance_sym, calculateDistance_meridian by lra.
    lra.
Qed.

Lemma calculateDistance_on_meridian_witness :
  calculateDistance (mkCoord 53.5611 9.9937) (mkCoord 53.5511 9.9937) =
  6371000 * (Rabs (53.5511 - 53.5611) * PI / 180).
Proof.
  apply (calculateDistance_on_meridian 53.5611 53.5511 9.9937).
  rewrite Rabs_left by lra. lra.
Defined.

(** ** The permission request *)

Module PermissionsFacts.

Import String Permissions.
#[local] Open Scope string_scope.

(** X12: the three flags of the answer exclude each other: whatever the
    platform and whatever the request does, at most one of [granted],
    [denied] and [blocked] is set, given that the three result constants
    are different strings. *)
Theorem permission_flags_exclusive
        (RESULTS : Results) (OS : string) (request : Request) :
  NoDup [GRANTED RESULTS; DENIED RESULTS; NEVER_ASK_AGAIN RESULTS] ->
  let p := requestLocationPermission RESULTS OS request in
  (granted p = true -> denied p = false /\ blocked p = false) /\
  (denied p = true -> granted p = false /\ blocked p = false) /\
  (blocked p = true -> granted p = false /\ denied p = false).
Proof.
  intros Hnd. cbv zeta. unfold requestLocationPermission.
  destruct (OS =? "android"); [| repeat split; discriminate].
  destruct request as [status |]; [| repeat split; discriminate].
  cbn [granted denied blocked].
  inversion Hnd as [| ? ? Hg Hnd']; subst.
  inversion Hnd' as [| ? ? Hd _]; subst.
  assert (Hgd : GRANTED RESULTS <> DENIED RESULTS)
    by (intros E; apply Hg; left; auto).
  assert (Hgn : GRANTED RESULTS <> NEVER_ASK_AGAIN RESULTS)
    by (intros E; apply Hg; right; left; auto).
  assert (Hdn : DENIED RESULTS <> NEVER_ASK_AGAIN RESULTS)
    by (intros E; apply Hd; left; auto).
  (split; [| split]); intros E; apply eqb_eq in E; subst status;
    split; apply eqb_neq; congruence.
Qed.

Lemma permission_flags_exclusive_witness :
  let p := requestLocationPermission reactNative "android" (Resolves "denied") in
  (granted p = true -> denied p = false /\ blocked p = false) /\
  (denied p = true -> granted p = false /\ blocked p = false) /\
  (blocked p = true -> granted p = false /\ denied p = false).
Proof.
  apply (permission_flags_exclusive reactNative "android" (Resolves "denied")).
  repeat constructor; cbn; intros H; repeat destruct H as [H | H];
    try discriminate H; exact H.
Defined.

End PermissionsFacts.

(** ** The nearby spots, the two distances and the average rating *)

Module FirebaseFacts.

Import Permutation Sorted FirebaseService.

Section Sorting.

Variable key : ParkingSpot -> R.

(** The comparator of [getNearbyParkingSpots]: a difference of keys. *)
Let compare (a b : ParkingSpot) : R := key a - key b.

Let ordered (a b : ParkingSpot) : Prop := key a <= key b.

Lemma insert_perm (x : ParkingSpot) (l : list ParkingSpot) :
  Permutation (insert compare x l) (x :: l).
Proof.
  induction l as [| y l IH]; cbn [insert]; [reflexivity |].
  destruct (JS.ltb (compare y x) 0); [| reflexivity].
  rewrite IH. apply perm_swap.
Qed.

Lemma sort_perm (l : list ParkingSpot) : Permutation (sort compare l) l.
Proof.
  induction l as [| x l IH]; [reflexivity |].
  unfold sort in *; cbn [fold_right]. rewrite insert_perm, IH. reflexivity.
Qed.

Lemma insert_sorted (x : ParkingSpot) (l : list ParkingSpot) :
  StronglySorted ordered l -> StronglySorted ordered (insert compare x l).
Proof.
  induction l as [| y l IH]; intros Hs; cbn [insert].
  - repeat constructor.
  - inversion Hs as [| ? ? Hs' Hall]; subst.
    unfold JS.ltb. destruct (Rlt_dec (compare y x) 0) as [Hlt | Hge];
      unfold compare in Hlt || unfold compare in Hge.
    + constructor; [apply IH, Hs' |].
      rewrite insert_perm.
      constructor; [unfold ordered; lra | exact Hall].
    + constructor; [exact Hs |].
      constructor; [unfold ordered; lra |].
      revert Hall. apply Forall_impl. unfold ordered. intros z Hz. lra.
Qed.

Lemma sort_sorted (l : list ParkingSpot) : StronglySorted ordered (sort compare l).
Proof.
  induction l as [| x l IH]; [constructor |].
  apply insert_sorted, IH.
Qed.

End Sorting.

(** X13: the nearby spots are exactly the spots of the snapshot that are
    within the radius (2 km when none is given): the result is a
    rearrangement of those, none left out, none added and none repeated. *)
Theorem nearby_exactly_within_radius
        (docs : list ParkingSpot) (lat lon : R) (radiusKm : option R) :
  let r := match radiusKm with Some r => r | None => 2 end in
  let nearby := getNearbyParkingSpots (Some docs) lat lon radiusKm in
  Permutation nearby (filter (fun spot => leb (distanceTo lat lon spot) r) docs) /\
  (forall spot, In spot nearby <-> In spot docs /\ distanceTo lat lon spot <= r).
Proof.
  cbv zeta. unfold getNearbyParkingSpots.
  set (r := match radiusKm with Some r => r | None => 2 end).
  assert (Hp := sort_perm (distanceTo lat lon)
                          (filter (fun spot => leb (distanceTo lat lon spot) r) docs)).
  split; [exact Hp |].
  intros spot. split.
  - intros H. apply (Permutation_in _ Hp), filter_In in H. destruct H as [H1 H2].
    split; [exact H1 |]. unfold leb in H2.
    destruct (Rle_dec (distanceTo lat lon spot) r); [assumption | discriminate].
  - intros [H1 H2]. apply (Permutation_in _ (Permutation_sym Hp)), filter_In.
    split; [exact H1 |]. unfold leb.
    destruct (Rle_dec (distanceTo lat lon spot) r); [reflexivity | contradiction].
Qed.

(** X14: the nearby spots come nearest first: in the result, no spot is
    farther from the position asked about than a spot after it.  This holds
    also when the query fails and the result is empty. *)
Theorem nearby_nearest_first
        (snapshot : option (list ParkingSpot)) (lat lon : R) (radiusKm : option R) :
  StronglySorted (fun a b => distanceTo lat lon a <= distanceTo lat lon b)
                 (getNearbyParkingSpots snapshot lat lon radiusKm).
Proof.
  unfold getNearbyParkingSpots. destruct snapshot as [docs |]; [| constructor].
  apply (sort_sorted (distanceTo lat lon)).
Qed.

End FirebaseFacts.



(** The sum that [reduce] computes, from any start. *)
Lemma reduce_sum_bounds (lo hi : R) (ratings : list R) (start : R) :
  Forall (fun rating => lo <= rating <= hi) ratings ->
  start + lo * INR (length ratings) <=
  fold_left (fun sum rating => sum + rating) ratings start <=
  start + hi * INR (length ratings).
Proof.
  intros H. revert start. induction H as [| r ratings Hr _ IH]; intros start.
  - cbn [fold_left length INR]. lra.
  - cbn [fold_left]. specialize (IH (start + r)).
    change (length (r :: ratings)) with (S (length ratings)). rewrite S_INR.
    lra.
Qed.

(** X16: the average rating of a spot lies between the lowest and the
    highest rating given: with ratings all between [lo] and [hi], and at
    least one of them, the average is between [lo] and [hi]. *)
Theorem averageRating_bounds (lo hi : R) (ratings : list R) :
  ratings <> [] ->
  Forall (fun rating => lo <= rating <= hi) ratings ->
  lo <= FirebaseService.averageRating ratings <= hi.
Proof.
  intros Hne H. unfold FirebaseService.averageRating.
  assert (Hn : 0 < INR (length ratings)).
  { destruct ratings as [| r ratings]; [contradiction |].
    apply lt_0_INR. cbn [length]. lia. }
  destruct (reduce_sum_bounds lo hi ratings 0 H) as [H1 H2].
  rewrite Rplus_0_l in H1, H2.
  split.
  - apply Rmult_le_reg_r with (INR (length ratings)); [exact Hn |].
    unfold Rdiv. rewrite Rmult_assoc, Rinv_l by lra. lra.
  - apply Rmult_le_reg_r with (INR (length ratings)); [exact Hn |].
    unfold Rdiv. rewrite Rmult_assoc, Rinv_l by lra. lra.
Qed.

Lemma averageRating_bounds_witness :
  1 <= FirebaseService.averageRating [4; 5; 3] <= 5.
Proof.
  apply (averageRating_bounds 1 5 [4; 5; 3]).
  - discriminate.
  - repeat constructor; lra.
Defined.

(** ** The age of a notification *)

Module NotificationsFacts.

Import String NotificationsScreen.
#[local] Open Scope string_scope.
#[local] Open Scope Z_scope.

Section FormatTime.

Variable toLocaleDateString : Z -> string.

(** X17: a notification dated in the future, or less than a minute ago, is
    shown as "Just now". *)
Theorem formatTime_just_now (now date : Z) :
  now - date < 60000 ->
  formatTime toLocaleDateString now date = "Just now".
Proof.
  intros H. unfold formatTime.
  assert (Hd : (now - date) / (1000 * 60) < 1)
    by (apply Z.div_lt_upper_bound; lia).
  apply Z.ltb_lt in Hd. rewrite Hd. reflexivity.
Qed.

(** X18: from one minute up to one hour the whole minutes are shown: the
    number is the age in ms divided by 60000, rounded down, and it is
    between 1 and 59. *)
Theorem formatTime_minutes (now date : Z) :
  60000 <= now - date < 3600000 ->
  1 <= (now - date) / 60000 <= 59 /\
  formatTime toLocaleDateString now date =
  show ((now - date) / 60000) ++ " min ago".
Proof.
  intros [H1 H2]. unfold formatTime.
  change (1000 * 60) with 60000.
  assert (Hlo : 1 <= (now - date) / 60000)
    by (apply Z.div_le_lower_bound; lia).
  assert (Hhi : (now - date) / 60000 < 60)
    by (apply Z.div_lt_upper_bound; lia).
  split; [lia |].
  apply Z.ltb_ge in Hlo. apply Z.ltb_lt in Hhi. rewrite Hlo, Hhi. reflexivity.
Qed.

(** X19: from one hour up to one day the whole hours are shown: the number
    is the age in ms divided by 3600000, rounded down, it is between 1 and
    23, and the word is "hour" for 1 and "hours" otherwise. *)
Theorem formatTime_hours (now date : Z) :
  3600000 <= now - date < 86400000 ->
  1 <= (now - date) / 3600000 <= 23 /\
  formatTime toLocaleDateString now date =
  show ((now - date) / 3600000) ++
  (if (now - date) / 3600000 =? 1 then " hour ago" else " hours ago").
Proof.
  intros [H1 H2]. unfold formatTime.
  change (1000 * 60) with 60000.
  assert (Hm : 60 <= (now - date) / 60000)
    by (apply Z.div_le_lower_bound; lia).
  assert (Hm' : (now - date) / 60000 < 1440)
    by (apply Z.div_lt_upper_bound; lia).
  assert (Hh : (now - date) / 60000 / 60 = (now - date) / 3600000)
    by (rewrite Z.div_div by lia; reflexivity).
  assert (Hlo : 1 <= (now - date) / 3600000)
    by (apply Z.div_le_lower_bound; lia).
  assert (Hhi : (now - date) / 3600000 < 24)
    by (apply Z.div_lt_upper_bound; lia).
  split; [lia |].
  replace ((now - date) / 60000 <? 1) with false by (symmetry; apply Z.ltb_ge; lia).
  replace ((now - date) / 60000 <? 60) with false by (symmetry; apply Z.ltb_ge; lia).
  apply Z.ltb_lt in Hm'. rewrite Hm'. cbv zeta. rewrite Hh.
  destruct (Z.eqb_spec ((now - date) / 3600000) 1) as [E | E].
  - rewrite E. reflexivity.
  - replace (1 <? (now - date) / 3600000) with true
      by (symmetry; apply Z.ltb_lt; lia).
    reflexivity.
Qed.

End FormatTime.

Lemma formatTime_just_now_witness :
  formatTime (fun _ => "1.1.2025") 1000 5000 = "Just now".
Proof.
  apply (formatTime_just_now (fun _ => "1.1.2025") 1000 5000). lia.
Defined.

Lemma formatTime_minutes_witness :
  1 <= (200000 - 0) / 60000 <= 59 /\
  formatTime (fun _ => "1.1.2025") 200000 0 = show ((200000 - 0) / 60000) ++ " min ago".
Proof.
  apply (formatTime_minutes (fun _ => "1.1.2025") 200000 0). lia.
Defined.

Lemma formatTime_hours_witness :
  1 <= (7199999 - 0) / 3600000 <= 23 /\
  formatTime (fun _ => "1.1.2025") 7199999 0 =
  show ((7199999 - 0) / 3600000) ++
  (if (7199999 - 0) / 3600000 =? 1 then " hour ago" else " hours ago").
Proof.
  apply (formatTime_hours (fun _ => "1.1.2025") 7199999 0). lia.
Defined.

End NotificationsFacts.

(** ** A park after a stationary period *)

(** X20: staying put is reported.  With one watch active and the timer
    pending on a machine that is not parked, let positions arrive and time
    pass in any order, each position less than 20 m from the one before it.
    Once the timeout is due, the next turn of the timers emits exactly one
    park event, carrying the coordinate that set the timer; until then only
    [onLocationUpdate] is called. *)
Theorem park_after_stationary_period
        (ins : list Input) (w : World) (id : nat) (t : Timeout) (l : Coord) :
  watches w = [id] -> isParked w = false ->
  timers w = [t] -> stationaryTimer w = Some (handle t) ->
  lastLocation w = Some l ->
  only_moves ins = true -> chain (fun d => d < 20) l (samples_of ins) ->
  (due t <= clock w + elapsed ins)%Z ->
  emitted w (run (ins ++ [RunTimers]) w) =
  map LocationUpdate (samples_of ins) ++ [ParkDetected (captured t)] /\
  isParked (run (ins ++ [RunTimers]) w) = true.
Proof.
  intros Hw Hp Ht Hh Hl Hins Hch Hdue.
  assert (H : calls (run (ins ++ [RunTimers]) w) =
              calls w ++ map LocationUpdate (samples_of ins) ++
                    [ParkDetected (captured t)] /\
              isParked (run (ins ++ [RunTimers]) w) = true).
  { revert w l Hw Hp Ht Hh Hl Hins Hch Hdue.
    induction ins as [| i ins IH]; intros w l Hw Hp Ht Hh Hl Hins Hch Hdue.
    - cbn [elapsed] in Hdue. rewrite Z.add_0_r in Hdue.
      cbn [app samples_of map]. rewrite run_cons, run_nil. cbn [step].
      destruct (runTimers_due w t Ht Hdue) as (He & Hp' & _ & _).
      split; [| exact Hp'].
      destruct (runTimers_cases w) as [E | (t' & Ht' & _ & _ & E)].
      + unfold timer_sync. rewrite Hh. exists t. split; [exact Ht | reflexivity].
      + rewrite E in Hp'. congruence.
      + rewrite Ht in Ht'. injection Ht' as <-. rewrite E. reflexivity.
    - cbn [only_moves forallb] in Hins. apply andb_prop in Hins as [Hi Hins].
      rewrite <- app_comm_cons, run_cons.
      destruct i as [| | c | answer | ms |]; try discriminate Hi.
      + cbn [samples_of chain] in Hch. destruct Hch as [Hd Hch].
        cbn [elapsed] in Hdue. cbn [step]. unfold deliver. rewrite Hw. cbn [fold_left].
        destruct (feed_cases c w)
          as [[Hl0 E] | (l' & Hl0 & [(Hd' & Hc & E) | [(Hd' & Hp0 & Ht0 & E)
                                   | [(Hd' & Hc & E) | (Hd' & Hp0 & E)]]])];
          try congruence;
          try (rewrite Hl in Hl0; injection Hl0 as <-; lra).
        assert (IH' := IH (feed c w) c). rewrite E in IH'.
        cbn [watches isParked timers stationaryTimer lastLocation clock calls] in IH'.
        destruct (IH' Hw Hp Ht Hh eq_refl Hins Hch Hdue) as [Hc' Hp'].
        rewrite E. split; [| exact Hp'].
        rewrite Hc'. cbn [samples_of map]. rewrite <- app_assoc. reflexivity.
      + cbn [samples_of] in Hch |- *. cbn [elapsed] in Hdue. cbn [step].
        destruct w as [wid last parked tm clk tms nt ws nw cs].
        cbn [watches isParked timers stationaryTimer lastLocation clock calls] in *.
        apply (IH (mkWorld wid last parked tm (clk + Z.of_N ms) tms nt ws nw cs) l);
          trivial.
        cbn [clock]. lia. }
  destruct H as [Hc Hp']. split; [apply emitted_app, Hc | exact Hp'].
Qed.

Lemma park_after_stationary_period_witness :
  emitted pending_at_near
          (run ([Position p0; Advance 1000; Position p_near] ++ [RunTimers])
               pending_at_near) =
  map LocationUpdate (samples_of [Position p0; Advance 1000; Position p_near]) ++
  [ParkDetected p_near] /\
  isParked (run ([Position p0; Advance 1000; Position p_near] ++ [RunTimers])
                pending_at_near) = true.
Proof.
  apply (park_after_stationary_period
           [Position p0; Advance 1000; Position p_near] pending_at_near 0%nat
           (mkTimeout 1 35000 p_near) p_near).
  - reflexivity.
  - reflexivity.
  - reflexivity.
  - reflexivity.
  - reflexivity.
  - reflexivity.
  - cbn [samples_of chain]. generalize d_near_p0 d_p0_near. intros. repeat split; lra.
  - vm_compute. discriminate.
Defined.
